(** * kiwiutils: a shallow embedding of the library and its checked properties

    The development follows the source files of [kiwiutils]:
    - [kiwilib.py]: [flatten], [getAllSubclasses], [addLineBreaks],
      [LinkedHeapNode] / [LinkedMinHeap], [YamlCodecDatetimes];
    - [enums.py]: [HierarchicalEnum], [enum_counts];
    - [l10n_i18n.py]: [Aliasable], [AliasableHierEnum];
    - [finite_valued.py]: [all_instances].

    Python exceptions are values of [exn]; a call either returns ([Ok]) or
    raises ([Raise]).  Loops over linked structures carry a fuel argument. *)

From stdpp Require Import base option list gmap strings numbers sorting.
From Stdlib Require Import ZifyNat Zify.

Open Scope Z_scope.

(** ** Exceptions and results *)

Inductive exn :=
| AttributeError
| IndexError
| KeyError
| NameError
| UnboundLocalError
| NotImplementedError
| OverflowError
| TypeError
| ValueError.

Inductive result (A : Type) :=
| Ok (a : A)
| Raise (e : exn).

Arguments Ok {A} a.
Arguments Raise {A} e.

Definition result_bind {A B : Type} (f : A -> result B) (r : result A) : result B :=
  match r with
  | Ok a => f a
  | Raise e => Raise e
  end.

#[export] Instance result_ret : MRet result := fun A a => Ok a.
#[export] Instance result_mbind : MBind result := fun A B f r => result_bind f r.

Section ResultMapM.

Context {A B : Type}.
Variable f : A -> result B.

(** [mapM] in the result monad, left to right: the first exception wins. *)
Fixpoint result_mapM (l : list A) : result (list B) :=
  match l with
  | [] => Ok []
  | x :: l' =>
      match f x with
      | Raise e => Raise e
      | Ok y =>
          match result_mapM l' with
          | Raise e => Raise e
          | Ok ys => Ok (y :: ys)
          end
      end
  end.

End ResultMapM.

(** * [kiwilib.addLineBreaks] *)

Module LineBreaks.

(** [delim in s] for Python strings. *)
Fixpoint contains (delim s : string) : bool :=
  match s with
  | EmptyString => String.prefix delim EmptyString
  | String _ s' => String.prefix delim s || contains delim s'
  end.

(** The scan of [str.split(sep)] for a non-empty separator.  [skip] counts
    the characters of a matched separator still to be passed over, [cur]
    is the segment under construction. *)
Fixpoint split_scan (delim : string) (skip : nat) (cur : string) (s : string)
  : list string :=
  match s with
  | EmptyString => [cur]
  | String c s' =>
      match skip with
      | S k => split_scan delim k cur s'
      | O =>
          if String.prefix delim s
          then cur :: split_scan delim (String.length delim - 1) EmptyString s'
          else split_scan delim O (cur +:+ String c EmptyString) s'
      end
  end.

(** [s.split(delim)]: an empty separator raises [ValueError]. *)
Definition split (s delim : string) : result (list string) :=
  match delim with
  | EmptyString => Raise ValueError
  | _ => Ok (split_scan delim O EmptyString s)
  end.

(** [sep.join([a, b])]. *)
Definition join2 (sep a b : string) : string := a +:+ sep +:+ b.

Definition newline : string := String (Ascii.ascii_of_nat 10) EmptyString.

(** The body of [for i, seg in enumerate(segments[:-1])], started at index
    [i] over the remaining items [rest] of [segments[:-1]]. *)
Fixpoint join_loop (segments : list string) (delim : string) (delimIndices : list Z)
    (i : nat) (rest : list string) (out : string) : result string :=
  match rest with
  | [] => Ok out
  | _ :: rest' =>
      match segments !! S i with
      | None => Raise IndexError
      | Some nxt =>
          let out' :=
            if bool_decide (Z.of_nat i ∈ delimIndices)
            then join2 newline out nxt
            else join2 delim out nxt in
          join_loop segments delim delimIndices (S i) rest' out'
      end
  end.

Definition addLineBreaks (s delim : string) (maxLen : option Z)
    (delimIndices : option (list Z)) (insert : Z) : result string :=
  if negb (contains delim s) then Ok s
  else if bool_decide (maxLen ≠ None) then Raise NotImplementedError
  else if negb (xorb (bool_decide (maxLen = None)) (bool_decide (delimIndices = None)))
  then Raise ValueError
  else
    match delimIndices with
    | Some di =>
        segments ← split s delim;
        match segments with
        | [] => Raise IndexError
        | seg0 :: _ => join_loop segments delim di 0 (removelast segments) seg0
        end
    | None => Raise UnboundLocalError
    end.

(** Replace-mode on a small input. *)
Example addLineBreaks_sample :
  addLineBreaks "a b c d" " " None (Some [1]) 0
  = Ok ("a b" +:+ newline +:+ "c d").
Proof. reflexivity. Qed.

Lemma addLineBreaks_absent s delim maxLen delimIndices insert :
  contains delim s = false ->
  addLineBreaks s delim maxLen delimIndices insert = Ok s.
Proof. intros H. unfold addLineBreaks. by rewrite H. Qed.

(** C10: when the delimiter does not occur in the text, the text is returned
    unchanged whatever [maxLen] and [delimIndices] are: the absence check
    stands before every parameter check. *)
Theorem addLineBreaks_no_delim_returns_input :
  forall (s delim : string) (maxLen : option Z) (delimIndices : option (list Z))
         (insert : Z),
    contains delim s = false ->
    addLineBreaks s delim maxLen delimIndices insert = Ok s.
Proof. intros. by apply addLineBreaks_absent. Qed.

Lemma addLineBreaks_no_delim_witness :
  contains "," "no comma here" = false
  /\ addLineBreaks "no comma here" "," (Some 3) (Some [0]) 0 = Ok "no comma here"
  /\ addLineBreaks "no comma here" "," None None 0 = Ok "no comma here".
Proof.
  split; [reflexivity|].
  split; apply addLineBreaks_no_delim_returns_input; reflexivity.
Defined.

(** C4, as stated, fails: with both parameters supplied the call does not
    raise [ValueError]; the [maxLen] stub raises first. *)
Lemma addLineBreaks_both_not_invalid_input :
  addLineBreaks "a b" " " (Some 5) (Some [0]) 0 <> Raise ValueError.
Proof. vm_compute. discriminate. Qed.

(** C4 (amended): when the delimiter occurs in the text, a call with neither
    parameter raises [ValueError], and a call with both raises
    [NotImplementedError]. *)
Theorem addLineBreaks_param_errors :
  forall (s delim : string) (insert : Z),
    contains delim s = true ->
    addLineBreaks s delim None None insert = Raise ValueError
    /\ forall (m : Z) (di : list Z),
         addLineBreaks s delim (Some m) (Some di) insert = Raise NotImplementedError.
Proof.
  intros s delim insert H. unfold addLineBreaks. rewrite H. simpl. split.
  - reflexivity.
  - intros m di. reflexivity.
Qed.

Lemma addLineBreaks_param_errors_witness :
  contains " " "a b" = true
  /\ addLineBreaks "a b" " " None None 0 = Raise ValueError
  /\ addLineBreaks "a b" " " (Some 5) (Some [0]) 0 = Raise NotImplementedError.
Proof.
  split; [reflexivity|].
  destruct (addLineBreaks_param_errors "a b" " " 0 eq_refl) as [H1 H2].
  split; [exact H1 | exact (H2 5 [0])].
Defined.

(** ** Splitting and joining *)

Lemma append_cons c (s1 s2 : string) : String c s1 +:+ s2 = String c (s1 +:+ s2).
Proof. reflexivity. Qed.

Lemma append_assoc (s1 s2 s3 : string) : (s1 +:+ s2) +:+ s3 = s1 +:+ s2 +:+ s3.
Proof. induction s1 as [|c s1 IH]; [done|]. by rewrite !append_cons, IH. Qed.

Lemma append_empty_r (s : string) : s +:+ EmptyString = s.
Proof. induction s as [|c s IH]; [done|]. by rewrite append_cons, IH. Qed.

Lemma length_append (s1 s2 : string) :
  String.length (s1 +:+ s2) = (String.length s1 + String.length s2)%nat.
Proof. induction s1 as [|c s1 IH]; [done|]. rewrite append_cons. cbn. by rewrite IH. Qed.

Lemma prefix_split (d s : string) :
  String.prefix d s = true -> exists r, s = d +:+ r.
Proof.
  revert s. induction d as [|c d IH]; intros s H; [by exists s|].
  destruct s as [|c' s]; [done|]. cbn in H.
  destruct (Ascii.ascii_dec c c') as [->|]; [|done].
  destruct (IH s H) as [r ->]. by exists r.
Qed.

(** [delim.join(segments)]. *)
Definition join (delim : string) (segments : list string) : string :=
  match segments with
  | [] => EmptyString
  | seg0 :: rest => foldl (fun out seg => join2 delim out seg) seg0 rest
  end.

Lemma foldl_join2 delim (rest : list string) : forall (pre out : string),
  foldl (fun out seg => join2 delim out seg) (pre +:+ out) rest
  = pre +:+ foldl (fun out seg => join2 delim out seg) out rest.
Proof.
  induction rest as [|seg rest IH]; intros pre out; [done|].
  cbn [foldl].
  change (join2 delim (pre +:+ out) seg) with ((pre +:+ out) +:+ delim +:+ seg).
  rewrite append_assoc. apply (IH pre (join2 delim out seg)).
Qed.

Lemma join_cons delim seg0 seg1 rest :
  join delim (seg0 :: seg1 :: rest) = seg0 +:+ delim +:+ join delim (seg1 :: rest).
Proof.
  cbn [join foldl].
  change (join2 delim seg0 seg1) with (seg0 +:+ delim +:+ seg1).
  rewrite <- append_assoc, foldl_join2. by rewrite append_assoc.
Qed.

Lemma split_scan_nonempty delim skip cur s : split_scan delim skip cur s <> [].
Proof.
  revert skip cur. induction s as [|c s IH]; intros skip cur; [done|].
  cbn [split_scan]. destruct skip; [|apply IH].
  destruct (String.prefix delim (String c s)); [done|apply IH].
Qed.

Lemma split_scan_skip delim (d : string) : forall cur r,
  split_scan delim (String.length d) cur (d +:+ r) = split_scan delim 0 cur r.
Proof.
  induction d as [|c d IH]; intros cur r; [by destruct r|]. cbn. apply IH.
Qed.

(** Joining what [split] gives restores the text. *)
Lemma join_split_scan delim :
  delim <> EmptyString ->
  forall n s cur,
    (String.length s <= n)%nat ->
    join delim (split_scan delim 0 cur s) = cur +:+ s.
Proof.
  intros Hd. induction n as [|n IH]; intros s cur Hn.
  { destruct s; [|cbn in Hn; lia]. cbn. by rewrite append_empty_r. }
  destruct s as [|c s]; [cbn; by rewrite append_empty_r|].
  cbn [split_scan]. cbn in Hn.
  destruct (String.prefix delim (String c s)) eqn:Hp.
  - destruct (prefix_split _ _ Hp) as [r Hr].
    destruct delim as [|c' d]; [done|]. cbn in Hr. injection Hr as <- ->.
    cbn [String.length].
    replace (S (String.length d) - 1)%nat with (String.length d) by lia.
    rewrite split_scan_skip.
    destruct (split_scan (String c d) 0 EmptyString r) as [|seg1 rest] eqn:E.
    { by apply split_scan_nonempty in E. }
    rewrite join_cons, <- E, IH.
    + done.
    + rewrite length_append in Hn. lia.
  - rewrite IH by lia. by rewrite append_assoc.
Qed.

(** The loop of [addLineBreaks] when no index is selected: the segments
    are joined with the delimiter again. *)
Lemma join_loop_none delim : forall (post pre rest : list string) (i : nat) (out : string),
  length pre = S i -> length rest = length post ->
  join_loop (pre ++ post) delim [] i rest out
  = Ok (foldl (fun out seg => join2 delim out seg) out post).
Proof.
  induction post as [|seg post IH]; intros pre rest i out Hpre Hrest.
  { by destruct rest. }
  destruct rest as [|r rest]; [done|]. cbn [join_loop].
  rewrite lookup_app_r by lia. rewrite Hpre, Nat.sub_diag. cbn [lookup foldl].
  rewrite bool_decide_eq_false_2 by set_solver.
  replace (pre ++ seg :: post) with ((pre ++ [seg]) ++ post) by (by rewrite <- app_assoc).
  apply IH; [rewrite length_app; cbn; lia|by injection Hrest].
Qed.

(** X11.  With a non-empty delimiter and an empty [delimIndices],
    [addLineBreaks] returns the text as it is (split at the delimiter and
    joined with it again).  With the empty delimiter, which every text
    contains, a call with [delimIndices] raises [ValueError], from
    [str.split]. *)
Theorem addLineBreaks_no_index (s delim : string) (insert : Z) :
  delim <> EmptyString ->
  addLineBreaks s delim None (Some []) insert = Ok s
  /\ forall di, addLineBreaks s EmptyString None (Some di) insert = Raise ValueError.
Proof.
  intros Hd. split.
  - unfold addLineBreaks. destruct (contains delim s); [|done]. cbn.
    unfold split. destruct delim as [|c d] eqn:Ed; [done|]. rewrite <- Ed in *.
    cbn [mbind result_bind].
    pose proof (join_split_scan delim Hd (String.length s) s EmptyString (le_n _)) as Hj.
    destruct (split_scan delim 0 EmptyString s) as [|seg0 rest] eqn:E.
    { by apply split_scan_nonempty in E. }
    pose proof (join_loop_none delim rest [seg0] (removelast (seg0 :: rest)) 0 seg0
                  eq_refl) as Hl.
    cbn [app] in Hl.
    change (join_loop (seg0 :: rest) delim [] 0 (removelast (seg0 :: rest)) seg0 = Ok s).
    rewrite Hl.
    + cbn [join] in Hj. by rewrite Hj.
    + destruct rest as [|seg1 rest]; [done|].
      change (length (seg0 :: removelast (seg1 :: rest)) = length (seg1 :: rest)).
      cbn [length]. f_equal.
      assert (seg1 :: rest <> []) as Hne by done.
      pose proof (f_equal length (app_removelast_last seg0 Hne)) as Hlen.
      rewrite length_app in Hlen. cbn [length] in Hlen. cbn [length]. lia.
  - intros di. unfold addLineBreaks.
    assert (contains EmptyString s = true) as -> by (by destruct s).
    done.
Qed.

Lemma addLineBreaks_no_index_witness :
  addLineBreaks "a, b, c" ", " None (Some []) 0 = Ok "a, b, c"
  /\ forall di, addLineBreaks "a, b, c" EmptyString None (Some di) 0 = Raise ValueError.
Proof. by apply (addLineBreaks_no_index "a, b, c" ", " 0). Defined.

End LineBreaks.

(** * [kiwilib.YamlCodecDatetimes] *)

Module YamlCodec.

(** The types registered in [types_to_yaml_tags]. *)
Inductive pytype :=
| T_datetime
| T_timedelta
| T_pd_Timestamp
| T_pd_NaT
| T_pd_NA
| T_pd_Timedelta
| T_np_timedelta64.

#[export] Instance pytype_eq_dec : EqDecision pytype.
Proof. solve_decision. Defined.

(** Attribute values and mapping entries: integers, [None], or a value of
    some other kind (a [tzinfo] object, say), kept opaque. *)
Inductive value :=
| VInt (z : Z)
| VNone
| VOpaque (tag : string).

#[export] Instance value_eq_dec : EqDecision value.
Proof. solve_decision. Defined.

(** [datetime.timedelta]: the three stored components. *)
Record timedelta := mk_timedelta {
  days : Z;
  seconds : Z;
  microseconds : Z
}.

(** The normal form every [timedelta] object is in. *)
Definition timedelta_normal (td : timedelta) : Prop :=
  -999999999 <= days td <= 999999999
  /\ 0 <= seconds td < 86400
  /\ 0 <= microseconds td < 1000000.

(** Objects handed to the codec.  Objects of the other registered types
    are kept as their type and attribute table. *)
Inductive pyobj :=
| ObjTimedelta (td : timedelta)
| ObjOther (ty : pytype) (attrs : gmap string value).

Definition type_of (o : pyobj) : pytype :=
  match o with
  | ObjTimedelta _ => T_timedelta
  | ObjOther ty _ => ty
  end.

(** [obj.__getattribute__(key)]. *)
Definition getattribute (o : pyobj) (key : string) : result value :=
  match o with
  | ObjTimedelta td =>
      if String.eqb key "days" then Ok (VInt (days td))
      else if String.eqb key "seconds" then Ok (VInt (seconds td))
      else if String.eqb key "microseconds" then Ok (VInt (microseconds td))
      else Raise AttributeError
  | ObjOther _ attrs =>
      match attrs !! key with
      | Some v => Ok v
      | None => Raise AttributeError
      end
  end.

Definition datetime_fields : list string :=
  ["year"; "month"; "day"; "hour"; "minute"; "second"; "microsecond"; "tzinfo"].

Definition timedelta_fields : list string := ["days"; "seconds"; "microseconds"].

Definition types_to_yaml_tags (ty : pytype) : string * list string :=
  match ty with
  | T_datetime => ("datetime.datetime", datetime_fields)
  | T_timedelta => ("datetime.timedelta", timedelta_fields)
  | T_pd_Timestamp => ("pd.Timestamp", datetime_fields)
  | T_pd_NaT => ("pd.NaT", [])
  | T_pd_NA => ("pd.NA", [])
  | T_pd_Timedelta => ("pd.Timedelta", timedelta_fields)
  | T_np_timedelta64 => ("np.timedelta64", timedelta_fields)
  end.

Definition known_types : list pytype :=
  [T_datetime; T_timedelta; T_pd_Timestamp; T_pd_NaT; T_pd_NA; T_pd_Timedelta;
   T_np_timedelta64].

(** [dict(zip([val[0] for val in ...values()], ...keys()))]. *)
Definition yaml_tags_to_types : gmap string pytype :=
  list_to_map (rev (map (fun ty => ((types_to_yaml_tags ty).1, ty)) known_types)).

(** The keyword arguments [timedelta(...)] accepts. *)
Definition timedelta_kwargs : list string :=
  ["days"; "seconds"; "microseconds"; "milliseconds"; "minutes"; "hours"; "weeks"].

(** A keyword argument of [timedelta(...)]: absent means the default 0; a
    value that is not a number raises [TypeError]. *)
Definition int_kwarg (dct : gmap string value) (key : string) : result Z :=
  match dct !! key with
  | None => Ok 0
  | Some (VInt z) => Ok z
  | Some _ => Raise TypeError
  end.

(** [datetime.timedelta] called with the keyword arguments [dct], on integers: the total is carried
    into days, seconds and microseconds; a day count beyond 999999999 in
    magnitude raises [OverflowError]. *)
Definition timedelta_new (dct : gmap string value) : result timedelta :=
  if bool_decide (dom dct ⊆ list_to_set (C := gset string) timedelta_kwargs) then
    d ← int_kwarg dct "days";
    s ← int_kwarg dct "seconds";
    us ← int_kwarg dct "microseconds";
    ms ← int_kwarg dct "milliseconds";
    mi ← int_kwarg dct "minutes";
    h ← int_kwarg dct "hours";
    w ← int_kwarg dct "weeks";
    let total_s := (d + 7 * w) * 86400 + (s + 60 * mi + 3600 * h) in
    let total_us := total_s * 1000000 + (us + 1000 * ms) in
    let us' := total_us `mod` 1000000 in
    let s_all := total_us `div` 1000000 in
    let s' := s_all `mod` 86400 in
    let d' := s_all `div` 86400 in
    if bool_decide (Z.abs d' <= 999999999)
    then Ok (mk_timedelta d' s' us')
    else Raise OverflowError
  else Raise TypeError.

Section Codec.

(** The constructors of the other registered types are those of their
    libraries. *)
Variable construct_other : pytype -> gmap string value -> result pyobj.

Definition construct (ty : pytype) (dct : gmap string value) : result pyobj :=
  match ty with
  | T_timedelta => td ← timedelta_new dct; Ok (ObjTimedelta td)
  | _ => construct_other ty dct
  end.

(** [from_yaml_dict]: the type registered under the suffix, called with the
    mapping as keyword arguments. *)
Definition from_yaml_dict (yaml_tag_suffix : string) (dct : gmap string value)
  : result pyobj :=
  match yaml_tags_to_types !! yaml_tag_suffix with
  | None => Raise KeyError
  | Some typ => construct typ dct
  end.

(** [value not in (None, 0)]. *)
Definition kept (v : value) : bool :=
  negb (bool_decide (v = VNone) || bool_decide (v = VInt 0)).

(** The dict comprehension of [to_yaml_dict], over the remaining keys. *)
Fixpoint encode_fields (o : pyobj) (keys : list string) (acc : gmap string value)
  : result (gmap string value) :=
  match keys with
  | [] => Ok acc
  | key :: keys' =>
      v ← getattribute o key;
      encode_fields o keys' (if kept v then <[key := v]> acc else acc)
  end.

Definition to_yaml_dict (o : pyobj) : result (string * gmap string value) :=
  let entry := types_to_yaml_tags (type_of o) in
  dct ← encode_fields o entry.2 ∅;
  Ok (entry.1, dct).

(** Encode, then decode the emitted mapping under the emitted tag. *)
Definition roundtrip (o : pyobj) : result pyobj :=
  '(tag, dct) ← to_yaml_dict o;
  from_yaml_dict tag dct.

End Codec.

(** The emitted mapping of a duration, component by component. *)
Definition component_entry (z : Z) : option value :=
  if bool_decide (z = 0) then None else Some (VInt z).

Lemma to_yaml_dict_timedelta (td : timedelta) :
  exists dct,
    to_yaml_dict (ObjTimedelta td) = Ok ("datetime.timedelta"%string, dct)
    /\ dct !! "days"%string = component_entry (days td)
    /\ dct !! "seconds"%string = component_entry (seconds td)
    /\ dct !! "microseconds"%string = component_entry (microseconds td)
    /\ dom dct ⊆ list_to_set (C := gset string) timedelta_fields.
Proof.
  destruct td as [d s us]. unfold to_yaml_dict, component_entry. simpl.
  unfold kept.
  eexists. split; [reflexivity|].
  repeat case_bool_decide; simplify_eq; simpl in *;
    repeat split; try done; try (by simplify_map_eq);
    rewrite ?dom_insert_L, ?dom_empty_L; set_solver.
Qed.

Lemma int_kwarg_entry (dct : gmap string value) key z :
  dct !! key = component_entry z -> int_kwarg dct key = Ok z.
Proof.
  unfold int_kwarg, component_entry. intros ->.
  case_bool_decide; by subst.
Qed.

Lemma int_kwarg_absent (dct : gmap string value) key :
  key ∉ dom dct -> int_kwarg dct key = Ok 0.
Proof.
  intros H. unfold int_kwarg. by rewrite (not_elem_of_dom_1 dct key H).
Qed.

Lemma timedelta_new_normal (dct : gmap string value) (td : timedelta) :
  timedelta_normal td ->
  dct !! "days"%string = component_entry (days td) ->
  dct !! "seconds"%string = component_entry (seconds td) ->
  dct !! "microseconds"%string = component_entry (microseconds td) ->
  dom dct ⊆ list_to_set (C := gset string) timedelta_fields ->
  timedelta_new dct = Ok td.
Proof.
  intros (Hd & Hs & Hus) Ed Es Eus Hdom. unfold timedelta_new.
  rewrite bool_decide_eq_true_2 by (unfold timedelta_fields, timedelta_kwargs in *; set_solver).
  rewrite (int_kwarg_entry _ _ _ Ed), (int_kwarg_entry _ _ _ Es),
    (int_kwarg_entry _ _ _ Eus).
  rewrite !int_kwarg_absent by (unfold timedelta_fields in *; set_solver).
  simpl. destruct td as [d s us]. simpl in *.
  replace ((d + 7 * 0) * 86400 + (s + 60 * 0 + 3600 * 0)) with (d * 86400 + s) by lia.
  replace (us + 1000 * 0) with us by lia.
  assert (E1 : ((d * 86400 + s) * 1000000 + us) `div` 1000000 = d * 86400 + s).
  { symmetry. apply (Z.div_unique_pos _ _ _ us); lia. }
  assert (E2 : ((d * 86400 + s) * 1000000 + us) `mod` 1000000 = us).
  { symmetry. apply (Z.mod_unique_pos _ _ (d * 86400 + s)); lia. }
  assert (E3 : (d * 86400 + s) `div` 86400 = d).
  { symmetry. apply (Z.div_unique_pos _ _ _ s); lia. }
  assert (E4 : (d * 86400 + s) `mod` 86400 = s).
  { symmetry. apply (Z.mod_unique_pos _ _ d); lia. }
  rewrite E1, E2, E3, E4.
  rewrite bool_decide_eq_true_2 by lia. reflexivity.
Qed.

(** C7: a duration encoded through the mapping form and decoded again is the
    duration itself; a zero component is left out of the emitted mapping (and
    a non-zero one is emitted as it is), and decoding restores the zeros. *)
Theorem timedelta_roundtrip :
  forall (construct_other : pytype -> gmap string value -> result pyobj)
         (td : timedelta),
    timedelta_normal td ->
    exists dct,
      to_yaml_dict (ObjTimedelta td) = Ok ("datetime.timedelta"%string, dct)
      /\ dct !! "days"%string = component_entry (days td)
      /\ dct !! "seconds"%string = component_entry (seconds td)
      /\ dct !! "microseconds"%string = component_entry (microseconds td)
      /\ from_yaml_dict construct_other "datetime.timedelta" dct = Ok (ObjTimedelta td)
      /\ roundtrip construct_other (ObjTimedelta td) = Ok (ObjTimedelta td).
Proof.
  intros co td Hn.
  destruct (to_yaml_dict_timedelta td) as (dct & E & Hd & Hs & Hus & Hdom).
  exists dct. repeat split; try done.
  - unfold from_yaml_dict. simpl.
    replace (yaml_tags_to_types !! "datetime.timedelta"%string) with (Some T_timedelta)
      by (by vm_compute).
    simpl. by rewrite (timedelta_new_normal dct td).
  - unfold roundtrip. rewrite E. simpl. unfold from_yaml_dict.
    replace (yaml_tags_to_types !! "datetime.timedelta"%string) with (Some T_timedelta)
      by (by vm_compute).
    simpl. by rewrite (timedelta_new_normal dct td).
Qed.

Lemma timedelta_roundtrip_witness :
  timedelta_normal (mk_timedelta 3 10 0)
  /\ exists dct,
      to_yaml_dict (ObjTimedelta (mk_timedelta 3 10 0))
        = Ok ("datetime.timedelta"%string, dct)
      /\ dct !! "days"%string = Some (VInt 3)
      /\ dct !! "seconds"%string = Some (VInt 10)
      /\ dct !! "microseconds"%string = None
      /\ from_yaml_dict (fun _ _ => Raise TypeError) "datetime.timedelta" dct
           = Ok (ObjTimedelta (mk_timedelta 3 10 0))
      /\ roundtrip (fun _ _ => Raise TypeError) (ObjTimedelta (mk_timedelta 3 10 0))
           = Ok (ObjTimedelta (mk_timedelta 3 10 0)).
Proof.
  assert (Hn : timedelta_normal (mk_timedelta 3 10 0)).
  { unfold timedelta_normal. simpl. lia. }
  split; [exact Hn|].
  exact (timedelta_roundtrip (fun _ _ => Raise TypeError) (mk_timedelta 3 10 0) Hn).
Defined.

(** ** What the encoder emits *)

Lemma tag_of_type (ty : pytype) :
  yaml_tags_to_types !! (types_to_yaml_tags ty).1 = Some ty.
Proof. destruct ty; by vm_compute. Qed.

Lemma encode_fields_entries (o : pyobj) (keys : list string) :
  forall acc dct,
    encode_fields o keys acc = Ok dct ->
    forall key v,
      dct !! key = Some v ->
      acc !! key = Some v
      \/ (key ∈ keys /\ getattribute o key = Ok v /\ kept v = true).
Proof.
  induction keys as [|k keys IH]; intros acc dct E key v Hv; cbn [encode_fields] in E.
  { injection E as <-. by left. }
  destruct (getattribute o k) as [vk|] eqn:Ek; [|done]. cbn in E.
  destruct (IH _ _ E key v Hv) as [Hacc|(Hin & Hg & Hk)].
  - destruct (kept vk) eqn:Hkept; [|by left].
    destruct (decide (k = key)) as [->|Hne].
    + rewrite lookup_insert_eq in Hacc. injection Hacc as <-.
      right. split; [set_solver|done].
    + rewrite lookup_insert_ne in Hacc by done. by left.
  - right. split; [set_solver|done].
Qed.

Lemma encode_fields_error (o : pyobj) (keys : list string) :
  forall acc e, encode_fields o keys acc = Raise e -> e = AttributeError.
Proof.
  induction keys as [|k keys IH]; intros acc e E; cbn [encode_fields] in E; [done|].
  destruct o as [td|ty attrs]; cbn [getattribute] in E.
  - repeat (destruct (String.eqb _ _); [cbn in E; by eapply IH|]).
    cbn in E. congruence.
  - destruct (attrs !! k); cbn in E; [by eapply IH|congruence].
Qed.

(** X15.  Whatever registered object [to_yaml_dict] is given, it either
    raises [AttributeError] (a listed attribute is missing) or returns a
    tag and a mapping such that: [from_yaml_dict] on that tag calls the
    type of the object itself; every entry of the mapping is an attribute
    of the object that is listed for its type; and no entry holds [None]
    or [0]. *)
Theorem to_yaml_dict_emits
    (construct_other : pytype -> gmap string value -> result pyobj) (o : pyobj) :
  match to_yaml_dict o with
  | Raise e => e = AttributeError
  | Ok (tag, dct) =>
      from_yaml_dict construct_other tag dct
        = construct construct_other (type_of o) dct
      /\ forall key v,
           dct !! key = Some v ->
           key ∈ (types_to_yaml_tags (type_of o)).2
           /\ getattribute o key = Ok v
           /\ v <> VNone /\ v <> VInt 0
  end.
Proof.
  unfold to_yaml_dict.
  destruct (encode_fields o (types_to_yaml_tags (type_of o)).2 ∅) as [dct|e] eqn:E.
  - cbn. split.
    + unfold from_yaml_dict. by rewrite tag_of_type.
    + intros key v Hv.
      destruct (encode_fields_entries _ _ _ _ E key v Hv) as [Hacc|(Hin & Hg & Hk)].
      { by rewrite lookup_empty in Hacc. }
      split; [done|]. split; [done|]. unfold kept in Hk.
      apply negb_true_iff, orb_false_iff in Hk as [H1 H2].
      by apply bool_decide_eq_false in H1, H2.
  - cbn. by eapply encode_fields_error.
Qed.

End YamlCodec.

(** * [enums.enum_counts] *)

Module EnumCounts.

Section Counts.

(** The members of the universe, with their textual rendering. *)
Context {E : Type} `{EqDecision E}.
Variable str : E -> string.

(** What a row list holds: members before the call, counts after it. *)
Inductive cell :=
| Member (e : E)
| Int (z : Z).

#[local] Instance cell_eq_dec : EqDecision cell.
Proof. solve_decision. Defined.

(** The row lists are objects: the store maps an object to its current
    content, and a series holds references to them. *)
Definition store := nat -> list cell.

Definition set_row (st : store) (r : nat) (l : list cell) : store :=
  fun r' => if decide (r' = r) then l else st r'.

(** [countDict[e]] after the counting loop over [lst]. *)
Definition count_of (lst : list cell) (e : E) : Z :=
  Z.of_nat (length (filter (fun c => c = Member e) lst)).

(** [make_count(lst, enumCls1)] on the list object [r]: the new store and
    the returned reference ([None] from the counting branch). *)
Definition make_count (st : store) (r : nat) (enumCls1 : list E)
  : store * option nat :=
  let lst := st r in
  if bool_decide (length lst = 0%nat) then
    (set_row st r (lst ++ replicate (length enumCls1) (Int 0)), Some r)
  else
    let countDict := count_of lst in
    let st1 := set_row st r [] in
    (set_row st1 r (st1 r ++ map (fun e => Int (countDict e)) enumCls1), None).

(** [ser.apply(make_count, args=(enumList,))]: one call per element, in
    order. *)
Fixpoint apply_make_count (st : store) (ser : list nat) (enumList : list E) : store :=
  match ser with
  | [] => st
  | r :: ser' => apply_make_count (make_count st r enumList).1 ser' enumList
  end.

(** [np.vstack]: needs at least one row, and rows of one length. *)
Definition vstack (rows : list (list cell)) : result (list (list cell)) :=
  match rows with
  | [] => Raise ValueError
  | row :: rows' =>
      if forallb (fun r => bool_decide (length r = length row)) rows'
      then Ok rows
      else Raise ValueError
  end.

(** [enum_counts(ser, enumCls)]: the store after the call, and the table
    (rows and column labels) or the exception. *)
Definition enum_counts (st : store) (ser : list nat) (enumCls : list E)
  : store * result (list (list cell) * list string) :=
  let enumList := enumCls in
  let st' := apply_make_count st ser enumList in
  (st',
   out ← vstack (map st' ser);
   match enumList with
   | [] => Raise IndexError
   | _ :: _ => Ok (out, map str enumList)
   end).

(** The count vector of a row over the universe. *)
Definition count_vector (lst : list cell) (enumCls : list E) : list cell :=
  map (fun e => Int (count_of lst e)) enumCls.

Definition zeros (enumCls : list E) : list cell :=
  replicate (length enumCls) (Int 0).

Lemma make_count_at st r enumCls :
  (make_count st r enumCls).1 r
  = if bool_decide (st r = []) then zeros enumCls else count_vector (st r) enumCls.
Proof.
  unfold make_count, set_row, zeros, count_vector.
  destruct (st r) as [|c l] eqn:E0; simpl.
  - rewrite E0. by rewrite decide_True.
  - by rewrite !decide_True.
Qed.

Lemma make_count_other st r r' enumCls :
  r' <> r -> (make_count st r enumCls).1 r' = st r'.
Proof.
  intros Hne. unfold make_count, set_row.
  case_bool_decide; simpl; by rewrite !decide_False.
Qed.

Lemma apply_make_count_other ser : forall st r' enumCls,
  r' ∉ ser -> apply_make_count st ser enumCls r' = st r'.
Proof.
  induction ser as [|r ser IH]; intros st r' enumCls Hnin; simpl; [done|].
  rewrite IH by set_solver. apply make_count_other. set_solver.
Qed.

Lemma apply_make_count_at ser : forall st r enumCls,
  NoDup ser -> r ∈ ser ->
  apply_make_count st ser enumCls r
  = if bool_decide (st r = []) then zeros enumCls else count_vector (st r) enumCls.
Proof.
  induction ser as [|r0 ser IH]; intros st r enumCls Hnd Hin; [by inversion Hin|].
  apply NoDup_cons in Hnd as [Hnin Hnd]. simpl.
  destruct (decide (r = r0)) as [->|Hne].
  - rewrite apply_make_count_other by done. apply make_count_at.
  - rewrite IH by set_solver. by rewrite make_count_other.
Qed.


Lemma zeros_no_member enumCls e : Member e ∉ zeros enumCls.
Proof.
  unfold zeros. intros Hin. apply elem_of_replicate in Hin as [Hx _]. discriminate.
Qed.


End Counts.

(** The example of the specification: rows [[A, A, B]] and [[]] over the
    universe [A, B, C]. *)
Inductive abc := A | B | C.

#[export] Instance abc_eq_dec : EqDecision abc.
Proof. solve_decision. Defined.

Definition abc_str (e : abc) : string :=
  match e with A => "A" | B => "B" | C => "C" end.

Definition abc_store : store (E := abc) :=
  fun r => match r with
           | O => [Member A; Member A; Member B]
           | _ => []
           end.

Example enum_counts_sample :
  (enum_counts abc_str abc_store [0%nat; 1%nat] [A; B; C]).2
  = Ok ([[Int 2; Int 1; Int 0]; [Int 0; Int 0; Int 0]], ["A"; "B"; "C"]%string).
Proof. reflexivity. Qed.


(** ** The table *)

Section Table.

Context {E : Type} `{EqDecision E}.
Variable str : E -> string.

(** The row of the table for a row list: zeros for an empty list, the
    number of occurrences of each member of the universe otherwise. *)
Definition table_row (enumCls : list E) (lst : list (cell (E := E))) : list cell :=
  if bool_decide (lst = []) then zeros enumCls else count_vector lst enumCls.

Lemma table_row_length enumCls lst : length (table_row enumCls lst) = length enumCls.
Proof.
  unfold table_row, zeros, count_vector.
  case_bool_decide; by rewrite ?length_replicate, ?length_map.
Qed.

(** X14.  For a series of distinct row lists, with at least one row and
    at least one member in the universe, [enum_counts] returns the table
    with one row per row list, in order: the counts of the members of the
    universe in that list, one column per member in the order of the
    universe, labelled with [str] of the member.  With no member in the
    universe it raises [IndexError]; with no row, [np.vstack] raises
    [ValueError]. *)
Theorem enum_counts_table (st : store) (ser : list nat) (enumCls : list E) :
  NoDup ser ->
  (ser <> [] -> enumCls <> [] ->
     (enum_counts str st ser enumCls).2
     = Ok (map (fun r => table_row enumCls (st r)) ser, map str enumCls))
  /\ (ser <> [] -> enumCls = [] ->
        (enum_counts str st ser enumCls).2 = Raise IndexError)
  /\ (ser = [] -> (enum_counts str st ser enumCls).2 = Raise ValueError).
Proof.
  intros Hnd.
  assert (Hrows : map (apply_make_count st ser enumCls) ser
                  = map (fun r => table_row enumCls (st r)) ser).
  { apply map_ext_in. intros r Hr. apply apply_make_count_at; [done|].
    by apply list_elem_of_In. }
  assert (Hstack : ser <> [] ->
            vstack (map (fun r => table_row enumCls (st r)) ser)
            = Ok (map (fun r => table_row enumCls (st r)) ser)).
  { intros Hne. destruct ser as [|r0 ser']; [done|]. cbn [map vstack].
    rewrite (proj2 (forallb_forall _ _)); [done|].
    intros row Hin. apply in_map_iff in Hin as (r & <- & _).
    apply bool_decide_eq_true. by rewrite !table_row_length. }
  unfold enum_counts. cbn [snd]. rewrite Hrows. repeat split.
  - intros Hs He. rewrite (Hstack Hs). by destruct enumCls.
  - intros Hs ->. by rewrite (Hstack Hs).
  - by intros ->.
Qed.

End Table.

Lemma enum_counts_table_witness :
  (enum_counts abc_str abc_store [0%nat; 1%nat] [A; B; C]).2
  = Ok ([[Int 2; Int 1; Int 0]; [Int 0; Int 0; Int 0]], ["A"; "B"; "C"]%string).
Proof.
  assert (Hnd : NoDup [0%nat; 1%nat]).
  { apply NoDup_cons. split; [set_solver|]. apply NoDup_singleton. }
  destruct (enum_counts_table abc_str abc_store [0%nat; 1%nat] [A; B; C] Hnd)
    as [H _].
  by rewrite H.
Defined.

End EnumCounts.

(** * Class hierarchies: [getAllSubclasses], [HierarchicalEnum],
      [AliasableHierEnum] *)

Module Hier.

(** A class, as the statements of the library see it: its name, its direct
    bases, the names bound in its body, and whether it still has abstract
    methods.  A class is referred to by its position in the table of classes,
    which lists them in definition order. *)
Record pyclass := mk_class {
  cls_name : string;
  cls_bases : list nat;
  cls_attrs : list string;
  cls_abstract : bool
}.

Definition class_table := list pyclass.

(** [cls.__subclasses__()]: the direct subclasses, in definition order. *)
Definition is_direct_base (ct : class_table) (c j : nat) : bool :=
  match ct !! j with
  | Some k => bool_decide (c ∈ cls_bases k)
  | None => false
  end.

Definition subclasses (ct : class_table) (c : nat) : list nat :=
  filter (fun j => is_direct_base ct c j) (seq 0 (length ct)).

(** The attribute names each class answers to, own or inherited, computed
    as classes are created. *)
Definition all_attrs (ct : class_table) : list (list string) :=
  foldl (fun acc k =>
           acc ++ [cls_attrs k
                   ++ concat (map (fun b => default [] (acc !! b)) (cls_bases k))])
        [] ct.

(** [hasattr(cls, name)] for a name that neither [object] nor the metaclass
    binds. *)
Definition hasattr (ct : class_table) (c : nat) (name : string) : bool :=
  bool_decide (name ∈ default [] (all_attrs ct !! c)).

(** [flatten(subs)] with no level bound, where [subs] is a list of sets of
    classes.  Each set is iterated; an element that answers to [__iter__]
    is taken for a nested iterable and iterated in turn, and iterating a
    class object raises [TypeError]. *)
Definition flatten_class (ct : class_table) (x : nat) : result (list nat) :=
  if hasattr ct x "__iter__" then Raise TypeError else Ok [x].

Definition flatten_sets (ct : class_table) (subs : list (gset nat))
  : result (list nat) :=
  per_set ← result_mapM
    (fun s : gset nat => l ← result_mapM (flatten_class ct) (elements s); Ok (concat l))
    subs;
  Ok (concat per_set).

(** [getAllSubclasses(class_, includeSelf)].  [None]: the fuel did not
    cover the depth of the hierarchy. *)
Fixpoint getAllSubclasses_fuel (fuel : nat) (ct : class_table) (class_ : nat)
    (includeSelf : bool) : option (result (gset nat)) :=
  match fuel with
  | O => None
  | S fuel' =>
      let fix over (l : list nat) : option (result (list (gset nat))) :=
        match l with
        | [] => Some (Ok [])
        | sub :: l' =>
            match getAllSubclasses_fuel fuel' ct sub true with
            | None => None
            | Some (Raise e) => Some (Raise e)
            | Some (Ok s) =>
                match over l' with
                | None => None
                | Some (Raise e) => Some (Raise e)
                | Some (Ok ss) => Some (Ok (s :: ss))
                end
            end
        end in
      match over (subclasses ct class_) with
      | None => None
      | Some (Raise e) => Some (Raise e)
      | Some (Ok subs) =>
          Some (flat ← flatten_sets ct subs;
                let subs' : gset nat := list_to_set flat in
                Ok (if includeSelf then subs' ∪ {[class_]} else subs'))
      end
  end.

(** The hierarchy below a class is at most as deep as the table is long. *)
Definition getAllSubclasses (ct : class_table) (class_ : nat) (includeSelf : bool)
  : option (result (gset nat)) :=
  getAllSubclasses_fuel (S (length ct)) ct class_ includeSelf.

(** [c()]: a class with abstract methods cannot be instantiated.  An
    instance of a hierarchical enumeration carries no data: it is
    identified with its class. *)
Definition instantiate (ct : class_table) (c : nat) : result nat :=
  match ct !! c with
  | None => Raise NameError
  | Some k => if cls_abstract k then Raise TypeError else Ok c
  end.

Definition name_of (ct : class_table) (c : nat) : string :=
  default EmptyString (cls_name <$> ct !! c).

Section HierarchicalEnum.

Variable ct : class_table.

(** [root_class] is abstract in [HierarchicalEnum]: each hierarchy
    supplies it. *)
Variable root_class : nat -> result nat.

(** [HierarchicalEnum.__repr__], on an instance of class [self]. *)
Definition repr (self : nat) : result string :=
  root ← root_class self;
  if bool_decide (self = root) then Ok (name_of ct self)
  else
    root' ← root_class self;
    Ok (name_of ct root' +:+ "." +:+ name_of ct self).

(** [HierarchicalEnum.__iter__]: the list the iterator runs over. *)
Definition iter (self : nat) : option (result (list nat)) :=
  match getAllSubclasses ct self false with
  | None => None
  | Some r => Some (s ← r; result_mapM (instantiate ct) (elements s))
  end.

(** [HierarchicalEnum.__len__]. *)
Definition len (self : nat) : option (result Z) :=
  match getAllSubclasses ct self false with
  | None => None
  | Some r => Some (s ← r; Ok (Z.of_nat (size s)))
  end.

End HierarchicalEnum.

(** ** [Aliasable] and [AliasableHierEnum] *)

Section Aliasable.

Variable ct : class_table.

(** [cls._aliasFuncs] and [cls._defaultLocale], set by [initAliasable] when
    the class is defined; [None] where the attribute is missing. *)
Variable aliasFuncs_of : nat -> option (list (string * (nat -> string))).
Variable defaultLocale_of : nat -> option string.

Fixpoint assoc {A : Type} (key : string) (l : list (string * A)) : option A :=
  match l with
  | [] => None
  | (k, v) :: l' => if String.eqb k key then Some v else assoc key l'
  end.

(** [Aliasable.alias(self, locale=None)]. *)
Definition alias (self : nat) (locale : option string) : result string :=
  match (match locale with
         | None => match defaultLocale_of self with
                   | None => Raise AttributeError
                   | Some l => Ok l
                   end
         | Some l => Ok l
         end) with
  | Raise e => Raise e
  | Ok loc =>
      match aliasFuncs_of self with
      | None => Raise AttributeError
      | Some funcs =>
          match assoc loc funcs with
          | None => Raise KeyError
          | Some f => Ok (f self)
          end
      end
  end.

(** A callable passed as [alias_func], by the number of positional
    arguments it requires. *)
Inductive alias_callable :=
| Fun1 (f : nat -> result string)
| Fun2 (f : nat -> option string -> result string).

(** [alias_func(x)]: a call with one argument. *)
Definition call1 (alias_func : alias_callable) (x : nat) : result string :=
  match alias_func with
  | Fun1 f => f x
  | Fun2 _ => Raise TypeError
  end.

(** The default of the parameter: [lambda x, loc: x.alias(loc)]. *)
Definition default_alias_func : alias_callable := Fun2 alias.

(** [{alias_func(sub()): sub for sub in subs}], over the remaining
    elements. *)
Fixpoint build_out (alias_func : alias_callable) (l : list nat) (out : gmap string nat)
  : result (gmap string nat) :=
  match l with
  | [] => Ok out
  | sub :: l' =>
      inst ← instantiate ct sub;
      a ← call1 alias_func inst;
      build_out alias_func l' (<[a := sub]> out)
  end.

(** [{c: c().alias(locale) for c in subs}]: the name [locale] is bound
    nowhere in the function or its module, so the first element evaluated
    raises [NameError] once [c()] has returned. *)
Definition build_subs (l : list nat) : result (gmap nat string) :=
  match l with
  | [] => Ok ∅
  | c :: _ => _ ← instantiate ct c; Raise NameError
  end.

(** The part of [aliases_to_members] after a call of [getAllSubclasses]
    has returned the set [subs]. *)
Definition aliases_to_members_over (alias_func : alias_callable) (subs : gset nat)
  : result (gmap string nat) :=
  out ← build_out alias_func (elements subs) ∅;
  if bool_decide (size out < size subs)%nat then
    _ ← build_subs (elements subs);
    Raise ValueError
  else Ok out.

(** [AliasableHierEnum.aliases_to_members(cls, alias_func)]. *)
Definition aliases_to_members (cls : nat) (alias_func : alias_callable)
  : option (result (gmap string nat)) :=
  match getAllSubclasses ct cls false with
  | None => None
  | Some r => Some (subs ← r; aliases_to_members_over alias_func subs)
  end.

End Aliasable.

(** ** A hierarchy with three leaves

    [HierarchicalEnum] (class 0), a root [R] deriving from it, and the
    leaves [L1], [L2], [L3] deriving from [R].  [R] implements
    [root_class] by returning itself. *)

Definition HierarchicalEnum_attrs : list string :=
  ["root_class"; "__repr__"; "__eq__"; "__hash__"; "__iter__"; "__len__"].

Definition three_leaves : class_table :=
  [ mk_class "HierarchicalEnum" [] HierarchicalEnum_attrs true;
    mk_class "R" [0%nat] ["root_class"] false;
    mk_class "L1" [1%nat] [] false;
    mk_class "L2" [1%nat] [] false;
    mk_class "L3" [1%nat] [] false ].

Definition three_leaves_root (c : nat) : result nat := Ok 1%nat.

Example three_leaves_subclasses :
  subclasses three_leaves 1 = [2%nat; 3%nat; 4%nat].
Proof. reflexivity. Qed.

(** Every class below [HierarchicalEnum] answers to [__iter__]. *)
Example three_leaves_hasattr_iter :
  hasattr three_leaves 2 "__iter__" = true.
Proof. reflexivity. Qed.

(** A leaf has no subclass: its closure is empty and it iterates to
    nothing. *)
Example three_leaves_iter_leaf :
  iter three_leaves 2 = Some (Ok []).
Proof. reflexivity. Qed.

(** C6, at a root [R] with the direct leaves [L1], [L2], [L3]: the
    renderings are ["R.L1"] and ["R"], and iterating an instance of [R]
    raises [TypeError] instead of yielding the three leaves. *)
Theorem three_leaves_repr_and_iter :
  repr three_leaves three_leaves_root 2 = Ok "R.L1"%string
  /\ repr three_leaves three_leaves_root 1 = Ok "R"%string
  /\ iter three_leaves 1 = Some (Raise TypeError).
Proof. repeat split; reflexivity. Qed.

(** The closure of a class with a subclass raises whenever that subclass
    answers to [__iter__]: the case of every hierarchical enumeration. *)
Lemma flatten_sets_iter_class ct (x : nat) (rest : list (gset nat)) :
  hasattr ct x "__iter__" = true ->
  flatten_sets ct ({[x]} :: rest) = Raise TypeError.
Proof.
  intros H. unfold flatten_sets. simpl.
  rewrite elements_singleton. simpl. unfold flatten_class. by rewrite H.
Qed.

(** ** An aliasable hierarchy with two members sharing an alias

    [Aliasable] (class 1) and [AliasableHierEnum] (class 2) above a root
    [Colour] with the members [Red] and [Crimson], both rendered ["red"]
    in the only locale. *)

Definition colours : class_table :=
  [ mk_class "HierarchicalEnum" [] HierarchicalEnum_attrs true;
    mk_class "Aliasable" []
      ["alias"; "aliasFuncs"; "defaultLocale"; "setDefaultLocale"; "initAliasable";
       "__init_subclass__"] true;
    mk_class "AliasableHierEnum" [1%nat; 0%nat] ["root_class"; "aliases_to_members"] true;
    mk_class "Colour" [2%nat] ["aliasFuncs"; "_ROOT_CLASS"] false;
    mk_class "Red" [3%nat] [] false;
    mk_class "Crimson" [3%nat] [] false ].

Definition colours_aliasFuncs (c : nat) : option (list (string * (nat -> string))) :=
  if bool_decide (3 <= c)%nat
  then Some [("en_US"%string, fun self : nat => "red"%string)]
  else None.

Definition colours_defaultLocale (c : nat) : option string :=
  if bool_decide (3 <= c)%nat then Some "en_US"%string else None.

Example colours_alias_red :
  alias colours_aliasFuncs colours_defaultLocale 4 None = Ok "red"%string
  /\ alias colours_aliasFuncs colours_defaultLocale 5 None = Ok "red"%string.
Proof. split; reflexivity. Qed.

(** C5 at two sibling members with one alias: [aliases_to_members] with the
    default alias function raises [TypeError], not [ValueError]. *)
Theorem colours_aliases_to_members_default :
  aliases_to_members colours 3
    (default_alias_func colours_aliasFuncs colours_defaultLocale)
  = Some (Raise TypeError).
Proof. reflexivity. Qed.

(** Past the closure, the default alias function is called with one
    argument where it requires two. *)
Lemma aliases_over_default_raises ct af dl (subs : gset nat) (c : nat) :
  c ∈ subs ->
  (forall x, x ∈ subs -> instantiate ct x = Ok x) ->
  aliases_to_members_over ct (default_alias_func af dl) subs = Raise TypeError.
Proof.
  intros Hc Hinst. unfold aliases_to_members_over.
  destruct (elements subs) as [|x l] eqn:El.
  - apply elements_empty_inv in El. set_solver.
  - simpl. rewrite Hinst; [done|].
    apply elem_of_elements. rewrite El. set_solver.
Qed.

(** With a one-argument alias function, two members of one alias reach the
    diagnostic, which raises [NameError] on the unbound name. *)
Lemma aliases_over_duplicate_raises :
  aliases_to_members_over colours (Fun1 (fun x => Ok "red"%string)) {[4%nat; 5%nat]}
  = Raise NameError.
Proof. by vm_compute. Qed.

(** ** [getAllSubclasses] on any table of classes *)

(** Bases are defined before the classes that derive from them. *)
Definition table_ok (ct : class_table) : bool :=
  forallb (fun j => forallb (fun b => bool_decide (b < j)%nat)
                      (default [] (cls_bases <$> ct !! j)))
          (seq 0 (length ct)).

Lemma table_ok_bases ct j k b :
  table_ok ct = true -> ct !! j = Some k -> b ∈ cls_bases k -> (b < j)%nat.
Proof.
  unfold table_ok. rewrite forallb_forall. intros Hall Hj Hb.
  specialize (Hall j). rewrite Hj in Hall. cbn in Hall.
  rewrite forallb_forall in Hall.
  assert (bool_decide (b < j)%nat = true) as Hd.
  { apply Hall; [|by apply list_elem_of_In].
    apply in_seq. apply lookup_lt_Some in Hj. lia. }
  by apply bool_decide_eq_true in Hd.
Qed.

Lemma elem_of_subclasses ct c j :
  j ∈ subclasses ct c <-> is_direct_base ct c j = true.
Proof.
  unfold subclasses. rewrite list_elem_of_filter, elem_of_seq. split.
  - intros [H _]. by apply Is_true_true in H.
  - intros H. split; [by apply Is_true_true|]. unfold is_direct_base in H.
    destruct (ct !! j) eqn:Hj; [|done]. apply lookup_lt_Some in Hj. lia.
Qed.

Lemma subclasses_above ct c j :
  table_ok ct = true -> j ∈ subclasses ct c -> (c < j < length ct)%nat.
Proof.
  intros Hok Hj. apply elem_of_subclasses in Hj. unfold is_direct_base in Hj.
  destruct (ct !! j) as [k|] eqn:Ej; [|done].
  apply bool_decide_eq_true in Hj. split.
  - by eapply table_ok_bases.
  - by apply lookup_lt_Some in Ej.
Qed.

(** The list comprehension of [getAllSubclasses], over a function for the
    recursive calls. *)
Fixpoint closures (rec : nat -> option (result (gset nat))) (l : list nat)
  : option (result (list (gset nat))) :=
  match l with
  | [] => Some (Ok [])
  | sub :: l' =>
      match rec sub with
      | None => None
      | Some (Raise e) => Some (Raise e)
      | Some (Ok s) =>
          match closures rec l' with
          | None => None
          | Some (Raise e) => Some (Raise e)
          | Some (Ok ss) => Some (Ok (s :: ss))
          end
      end
  end.

Lemma getAllSubclasses_fuel_S fuel ct class_ includeSelf :
  getAllSubclasses_fuel (S fuel) ct class_ includeSelf
  = match closures (fun sub => getAllSubclasses_fuel fuel ct sub true)
            (subclasses ct class_) with
    | None => None
    | Some (Raise e) => Some (Raise e)
    | Some (Ok subs) =>
        Some (flat ← flatten_sets ct subs;
              let subs' : gset nat := list_to_set flat in
              Ok (if includeSelf then subs' ∪ {[class_]} else subs'))
    end.
Proof.
  cbn [getAllSubclasses_fuel].
  assert (E : forall l,
    (fix over (l : list nat) : option (result (list (gset nat))) :=
       match l with
       | [] => Some (Ok [])
       | sub :: l' =>
           match getAllSubclasses_fuel fuel ct sub true with
           | None => None
           | Some (Raise e) => Some (Raise e)
           | Some (Ok s) =>
               match over l' with
               | None => None
               | Some (Raise e) => Some (Raise e)
               | Some (Ok ss) => Some (Ok (s :: ss))
               end
           end
       end) l
    = closures (fun sub => getAllSubclasses_fuel fuel ct sub true) l).
  { induction l as [|sub l IH]; [done|]. cbn [closures]. by rewrite <- IH. }
  by rewrite E.
Qed.

Lemma closures_not_None rec l :
  (forall sub, sub ∈ l -> rec sub <> None) -> closures rec l <> None.
Proof.
  induction l as [|sub l IH]; intros H; [done|]. cbn [closures].
  destruct (rec sub) as [[s|e]|] eqn:E; [|done|].
  - destruct (closures rec l) as [[ss|e]|] eqn:E'; [done|done|].
    exfalso. apply IH; [|done]. intros sub' Hin. apply H. set_solver.
  - exfalso. apply (H sub); [set_solver|done].
Qed.

(** With the fuel [getAllSubclasses] starts from, the recursion is
    covered. *)
Lemma getAllSubclasses_fuel_enough ct :
  table_ok ct = true ->
  forall fuel class_ includeSelf,
    (1 <= fuel)%nat -> (length ct < fuel + class_)%nat ->
    getAllSubclasses_fuel fuel ct class_ includeSelf <> None.
Proof.
  intros Hok. induction fuel as [|fuel IH]; intros c b Hf1 Hfuel; [lia|].
  rewrite getAllSubclasses_fuel_S.
  destruct (closures _ (subclasses ct c)) as [[subs|e]|] eqn:E; [done|done|].
  exfalso. revert E. apply closures_not_None. intros sub Hin.
  pose proof (subclasses_above ct c sub Hok Hin). apply IH; lia.
Qed.

(** *** Inherited attributes *)

Lemma all_attrs_snoc ct k :
  all_attrs (ct ++ [k])
  = all_attrs ct
    ++ [cls_attrs k
        ++ concat (map (fun b => default [] (all_attrs ct !! b)) (cls_bases k))].
Proof. unfold all_attrs. by rewrite foldl_app. Qed.

Lemma length_all_attrs ct : length (all_attrs ct) = length ct.
Proof.
  induction ct as [|k ct IH] using rev_ind; [done|].
  rewrite all_attrs_snoc, !length_app, IH. done.
Qed.

Lemma hasattr_inherited ct c j name :
  table_ok ct = true -> is_direct_base ct c j = true ->
  hasattr ct c name = true -> hasattr ct j name = true.
Proof.
  unfold hasattr, is_direct_base, class_table in *. rewrite !bool_decide_eq_true.
  induction ct as [|k ct IH] using rev_ind; [done|].
  intros Hok Hbase Hc. rewrite all_attrs_snoc in *.
  destruct (ct !! j) as [kj|] eqn:Ej.
  - pose proof (lookup_lt_Some _ _ _ Ej) as Hj.
    rewrite lookup_app_l in Hbase by done. rewrite Ej in Hbase.
    apply bool_decide_eq_true in Hbase.
    assert (c < j)%nat as Hcj.
    { apply (table_ok_bases (ct ++ [k]) j kj c Hok); [|done].
      etransitivity; [by apply lookup_app_l|done]. }
    rewrite lookup_app_l in Hc by (rewrite length_all_attrs; lia).
    rewrite lookup_app_l by (by rewrite length_all_attrs).
    apply IH; [|by apply bool_decide_eq_true|done].
    unfold table_ok, class_table in *. rewrite forallb_forall in *. intros i Hi.
    apply in_seq in Hi. specialize (Hok i).
    rewrite lookup_app_l in Hok by lia. apply Hok, in_seq.
    rewrite length_app. cbn. lia.
  - apply lookup_ge_None in Ej.
    destruct (decide (j = length ct)) as [->|Hne].
    2: { rewrite lookup_ge_None_2 in Hbase; [done|]. rewrite length_app. cbn. lia. }
    rewrite lookup_app_r, Nat.sub_diag in Hbase by done. cbn in Hbase.
    apply bool_decide_eq_true in Hbase.
    assert (c < length ct)%nat as Hcj.
    { apply (table_ok_bases (ct ++ [k]) (length ct) k c Hok); [|done].
      etransitivity; [by apply lookup_app_r|]. by rewrite Nat.sub_diag. }
    rewrite lookup_app_l in Hc by (rewrite length_all_attrs; lia).
    rewrite lookup_app_r, length_all_attrs, Nat.sub_diag
      by (by rewrite length_all_attrs).
    cbn. apply elem_of_app. right.
    apply list_elem_of_In, in_concat. eexists. split.
    + apply in_map_iff. exists c. split; [done|]. by apply list_elem_of_In.
    + by apply list_elem_of_In.
Qed.

(** *** Hierarchies whose classes answer to [__iter__] *)

Lemma closures_iter rec l :
  (forall sub, sub ∈ l ->
     match rec sub with
     | None => True
     | Some (Raise e) => e = TypeError
     | Some (Ok s) => s = {[sub]}
     end) ->
  match closures rec l with
  | None => True
  | Some (Raise e) => e = TypeError
  | Some (Ok ss) => ss = (fun sub => {[sub]}) <$> l
  end.
Proof.
  induction l as [|sub l IH]; intros H; [done|]. cbn [closures].
  pose proof (H sub ltac:(set_solver)) as Hsub.
  destruct (rec sub) as [[s|e]|]; [|done|done]. subst s.
  assert (Hl : forall sub', sub' ∈ l ->
            match rec sub' with
            | None => True
            | Some (Raise e) => e = TypeError
            | Some (Ok s) => s = {[sub']}
            end) by (intros sub' Hin; apply H; set_solver).
  specialize (IH Hl).
  destruct (closures rec l) as [[ss|e]|]; [|done|done]. by subst ss.
Qed.

Lemma getAllSubclasses_fuel_iter ct :
  table_ok ct = true ->
  forall fuel class_ includeSelf,
    hasattr ct class_ "__iter__" = true ->
    match getAllSubclasses_fuel fuel ct class_ includeSelf with
    | None => True
    | Some (Raise e) => e = TypeError
    | Some (Ok s) =>
        subclasses ct class_ = [] /\ s = (if includeSelf then ∅ ∪ {[class_]} else ∅)
    end.
Proof.
  intros Hok. induction fuel as [|fuel IH]; intros c b Hc; [done|].
  rewrite getAllSubclasses_fuel_S.
  pose proof (closures_iter (fun sub => getAllSubclasses_fuel fuel ct sub true)
                (subclasses ct c)) as Hcl.
  destruct (closures _ (subclasses ct c)) as [[ss|e]|] eqn:E.
  - rewrite Hcl.
    2: { intros sub Hin.
         assert (hasattr ct sub "__iter__" = true) as Hsub.
         { apply (hasattr_inherited ct c); [done| |done]. by apply elem_of_subclasses. }
         specialize (IH sub true Hsub).
         destruct (getAllSubclasses_fuel fuel ct sub true) as [[s|e]|]; [|done|done].
         destruct IH as [_ ->]. set_solver. }
    destruct (subclasses ct c) as [|sub l] eqn:Es.
    + cbn. split; [done|]. by destruct b.
    + cbn [fmap list_fmap]. rewrite flatten_sets_iter_class; [done|].
      apply (hasattr_inherited ct c); [done| |done].
      apply elem_of_subclasses. rewrite Es. set_solver.
  - apply Hcl. intros sub Hin.
    assert (hasattr ct sub "__iter__" = true) as Hsub.
    { apply (hasattr_inherited ct c); [done| |done]. by apply elem_of_subclasses. }
    specialize (IH sub true Hsub).
    destruct (getAllSubclasses_fuel fuel ct sub true) as [[s|e']|]; [|done|done].
    destruct IH as [_ ->]. set_solver.
  - done.
Qed.

Lemma getAllSubclasses_iter_raises_aux ct (class_ : nat) (includeSelf : bool) :
  table_ok ct = true ->
  hasattr ct class_ "__iter__" = true ->
  subclasses ct class_ <> [] ->
  getAllSubclasses ct class_ includeSelf = Some (Raise TypeError)
  /\ iter ct class_ = Some (Raise TypeError)
  /\ len ct class_ = Some (Raise TypeError).
Proof.
  intros Hok Hc Hsub.
  assert (H : forall b, getAllSubclasses ct class_ b = Some (Raise TypeError)).
  { intros b. unfold getAllSubclasses.
    pose proof (getAllSubclasses_fuel_iter ct Hok (S (length ct)) class_ b Hc) as Hr.
    pose proof (getAllSubclasses_fuel_enough ct Hok (S (length ct)) class_ b
                  ltac:(lia) ltac:(lia)) as Hn.
    destruct (getAllSubclasses_fuel (S (length ct)) ct class_ b) as [[s|e]|];
      [by destruct Hr|by subst|done]. }
  split; [apply H|]. unfold iter, len. by rewrite (H false).
Qed.



(** *** Hierarchies whose classes do not answer to [__iter__] *)

Definition no_iter (ct : class_table) : bool :=
  forallb (fun j => negb (hasattr ct j "__iter__")) (seq 0 (length ct)).

Lemma no_iter_hasattr ct j : no_iter ct = true -> hasattr ct j "__iter__" = false.
Proof.
  unfold no_iter. rewrite forallb_forall. intros Hall.
  destruct (decide (j < length ct)%nat) as [Hj|Hj].
  - apply negb_true_iff, Hall, in_seq. lia.
  - unfold hasattr. rewrite lookup_ge_None_2 by (rewrite length_all_attrs; lia).
    by apply bool_decide_eq_false_2, not_elem_of_nil.
Qed.

Lemma flatten_sets_no_iter ct (subs : list (gset nat)) :
  no_iter ct = true ->
  flatten_sets ct subs = Ok (concat (elements <$> subs)).
Proof.
  intros Hno.
  assert (Hone : forall l : list nat,
            result_mapM (flatten_class ct) l = Ok ((fun x => [x]) <$> l)).
  { induction l as [|x l IH]; [done|]. cbn [result_mapM].
    unfold flatten_class at 1. rewrite (no_iter_hasattr ct x Hno). by rewrite IH. }
  assert (Hcat : forall l : list nat, concat ((fun x => [x]) <$> l) = l).
  { induction l as [|x l IH]; [done|]. cbn. by rewrite IH. }
  unfold flatten_sets.
  assert (Hsets : result_mapM
            (fun s : gset nat =>
               l ← result_mapM (flatten_class ct) (elements s); Ok (concat l)) subs
            = Ok (elements <$> subs)).
  { induction subs as [|s subs IH]; [done|]. cbn [result_mapM].
    rewrite Hone. cbn. rewrite Hcat. by rewrite IH. }
  by rewrite Hsets.
Qed.

(** The classes below a class: its direct subclasses, their direct
    subclasses, and so on. *)
Definition derives_from (ct : class_table) (c x : nat) : Prop :=
  tc (fun p q => is_direct_base ct p q = true) c x.

Lemma derives_from_step ct c x :
  derives_from ct c x
  <-> exists sub, is_direct_base ct c sub = true /\ (x = sub \/ derives_from ct sub x).
Proof.
  unfold derives_from. split.
  - intros H. inversion H as [? ? Hr|? sub ? Hr Ht]; subst.
    + exists x. by split; [|left].
    + exists sub. by split; [|right].
  - intros (sub & Hr & [->|Ht]).
    + by apply tc_once.
    + by eapply tc_l.
Qed.

Lemma closures_Ok rec l (P : nat -> gset nat -> Prop) :
  (forall sub, sub ∈ l -> exists s, rec sub = Some (Ok s) /\ P sub s) ->
  exists ss, closures rec l = Some (Ok ss) /\ Forall2 P l ss.
Proof.
  induction l as [|sub l IH]; intros H; [by exists []|]. cbn [closures].
  destruct (H sub ltac:(set_solver)) as (s & -> & Hs).
  destruct IH as (ss & -> & Hss); [intros sub' Hin; apply H; set_solver|].
  exists (s :: ss). split; [done|]. by constructor.
Qed.

Lemma getAllSubclasses_fuel_closure ct :
  table_ok ct = true -> no_iter ct = true ->
  forall fuel class_ includeSelf,
    (1 <= fuel)%nat -> (length ct < fuel + class_)%nat ->
    exists s,
      getAllSubclasses_fuel fuel ct class_ includeSelf = Some (Ok s)
      /\ forall x, x ∈ s <-> (includeSelf = true /\ x = class_) \/ derives_from ct class_ x.
Proof.
  intros Hok Hno. induction fuel as [|fuel IH]; intros c b Hf1 Hfuel; [lia|].
  rewrite getAllSubclasses_fuel_S.
  destruct (closures_Ok (fun sub => getAllSubclasses_fuel fuel ct sub true)
              (subclasses ct c)
              (fun sub s => forall x, x ∈ s <-> x = sub \/ derives_from ct sub x))
    as (ss & -> & Hss).
  { intros sub Hin. pose proof (subclasses_above ct c sub Hok Hin).
    destruct (IH sub true) as (s & E & Hs); [lia|lia|].
    exists s. split; [done|]. intros x. rewrite Hs. naive_solver. }
  rewrite flatten_sets_no_iter by done. cbn.
  eexists. split; [reflexivity|]. intros x.
  assert (Hflat : x ∈ (list_to_set (concat (elements <$> ss)) : gset nat)
                  <-> derives_from ct c x).
  { rewrite elem_of_list_to_set, derives_from_step.
    rewrite list_elem_of_In, in_concat. split.
    - intros (l & Hl & Hx). apply list_elem_of_In, list_elem_of_fmap in Hl as (s & -> & Hs).
      apply list_elem_of_In, elem_of_elements in Hx.
      apply list_elem_of_lookup in Hs as [i Hi].
      destruct (Forall2_lookup_r _ _ _ _ _ Hss Hi) as (sub & Hsub & HP).
      exists sub. split; [|by apply HP].
      apply elem_of_subclasses. by eapply list_elem_of_lookup_2.
    - intros (sub & Hr & Hx). apply elem_of_subclasses in Hr.
      apply list_elem_of_lookup in Hr as [i Hi].
      destruct (Forall2_lookup_l _ _ _ _ _ Hss Hi) as (s & Hs & HP).
      exists (elements s). split.
      + apply list_elem_of_In, list_elem_of_fmap. exists s. split; [done|].
        by eapply list_elem_of_lookup_2.
      + apply list_elem_of_In, elem_of_elements. by apply HP. }
  destruct b.
  - rewrite elem_of_union, elem_of_singleton, Hflat. naive_solver.
  - rewrite Hflat. naive_solver.
Qed.

(** X17.  In a table where bases come before the classes that derive
    from them and no class answers to [__iter__], [getAllSubclasses]
    returns the set of the classes that derive from the class, directly or
    through other classes, together with the class itself when
    [includeSelf] is true, and nothing else. *)
Theorem getAllSubclasses_is_closure ct (class_ : nat) (includeSelf : bool) :
  table_ok ct = true -> no_iter ct = true ->
  exists s,
    getAllSubclasses ct class_ includeSelf = Some (Ok s)
    /\ forall x, x ∈ s <-> (includeSelf = true /\ x = class_) \/ derives_from ct class_ x.
Proof.
  intros Hok Hno. apply getAllSubclasses_fuel_closure; [done|done|lia|lia].
Qed.

(** Plain classes: [Shape], [Polygon(Shape)], [Circle(Shape)],
    [Square(Polygon)]. *)
Definition shapes : class_table :=
  [ mk_class "Shape" [] ["area"] false;
    mk_class "Polygon" [0%nat] ["sides"] false;
    mk_class "Circle" [0%nat] [] false;
    mk_class "Square" [1%nat] [] false ].

Lemma getAllSubclasses_is_closure_witness :
  exists s,
    getAllSubclasses shapes 0 false = Some (Ok s)
    /\ forall x, x ∈ s <-> (false = true /\ x = 0%nat) \/ derives_from shapes 0 x.
Proof. by apply (getAllSubclasses_is_closure shapes 0 false). Defined.

(** ** [leafClasses] *)












(** ** [aliases_to_members] on any hierarchy *)

(** X20.  In a table where bases come before the classes that derive
    from them, [aliases_to_members] on a class that answers to [__iter__]
    (as every [AliasableHierEnum] does) and has at least one direct
    subclass raises [TypeError], whatever alias function is passed: the
    call of [getAllSubclasses] raises it.  On a class without subclasses
    it returns the empty mapping. *)
Theorem aliases_to_members_raises ct (cls : nat) (alias_func : alias_callable) :
  table_ok ct = true ->
  (hasattr ct cls "__iter__" = true -> subclasses ct cls <> [] ->
     aliases_to_members ct cls alias_func = Some (Raise TypeError))
  /\ (subclasses ct cls = [] ->
        aliases_to_members ct cls alias_func = Some (Ok ∅)).
Proof.
  intros Hok. split.
  - intros Hc Hsub. unfold aliases_to_members.
    destruct (getAllSubclasses_iter_raises_aux ct cls false Hok Hc Hsub) as [-> _].
    done.
  - intros Hsub. unfold aliases_to_members, getAllSubclasses.
    rewrite getAllSubclasses_fuel_S, Hsub. cbn.
    unfold aliases_to_members_over. by rewrite elements_empty.
Qed.

Lemma aliases_to_members_raises_witness :
  aliases_to_members colours 3 (Fun1 (fun x => Ok "red"%string))
  = Some (Raise TypeError)
  /\ aliases_to_members colours 4 (Fun1 (fun x => Ok "red"%string)) = Some (Ok ∅).
Proof.
  destruct (aliases_to_members_raises colours 3 (Fun1 (fun x => Ok "red"%string))
              eq_refl) as [H3 _].
  destruct (aliases_to_members_raises colours 4 (Fun1 (fun x => Ok "red"%string))
              eq_refl) as [_ H4].
  split; [by apply H3|by apply H4].
Defined.

End Hier.

(** * [finite_valued.all_instances] *)

Module FiniteValued.

(** Arguments of a [Literal] type. *)
Inductive literal :=
| LInt (z : Z)
| LStr (s : string)
| LBool (b : bool)
| LNone.

(** Type descriptions as [all_instances] tells them apart: [bool]; a class
    with [__dataclass_fields__], abstract (with its direct subclasses) or
    concrete (with its fields in declaration order); a generic tuple, a
    union or a [Literal] type with their arguments; anything else. *)
Inductive ftype :=
| TBool
| TAbstractDataclass (name : string) (subclasses : list ftype)
| TDataclass (name : string) (fields : list (string * ftype))
| TTuple (args : list ftype)
| TUnion (args : list ftype)
| TLiteral (args : list literal)
| TOther (name : string).

(** Generated instances. *)
Inductive value :=
| VBool (b : bool)
| VLiteral (l : literal)
| VTuple (items : list value)
| VDataclass (name : string) (kwargs : list (string * value)).

(** [itertools.product] of the given sequences: the last one varies
    fastest; no sequence gives the single empty combination. *)
Fixpoint product {A : Type} (ls : list (list A)) : list (list A) :=
  match ls with
  | [] => [[]]
  | l :: ls' => x ← l; (fun rest => x :: rest) <$> product ls'
  end.

(** [flatten(gens, levels_to_flatten=1)] over generators that have run to
    completion: their items one after the other, left as they are. *)
Definition flatten1 {A : Type} (gens : list (list A)) : list A := concat gens.

(** [all_instances(type_)] with no validation functions, run to
    completion: the generated instances in order, or the exception. *)
Fixpoint all_instances (type_ : ftype) : result (list value) :=
  match type_ with
  | TBool => Ok [VBool true; VBool false]
  | TAbstractDataclass _ subs =>
      gens ← result_mapM all_instances subs; Ok (flatten1 gens)
  | TDataclass name fields =>
      gens ← result_mapM (fun fld => all_instances fld.2) fields;
      Ok ((fun args => VDataclass name (zip (map fst fields) args)) <$> product gens)
  | TTuple args =>
      gens ← result_mapM all_instances args; Ok (VTuple <$> product gens)
  | TUnion args =>
      gens ← result_mapM all_instances args; Ok (flatten1 gens)
  | TLiteral args => Ok (VLiteral <$> args)
  | TOther _ => Raise TypeError
  end.



(** A record of one boolean field and one field of a three-valued literal
    type has six instances. *)
Example all_instances_six :
  length <$> (match all_instances
                      (TDataclass "Rec" [("flag"%string, TBool);
                                         ("level"%string, TLiteral [LInt 1; LInt 2; LInt 3])])
              with Ok l => Some l | Raise _ => None end) = Some 6%nat.
Proof. reflexivity. Qed.












(** ** Unsupported type descriptions *)




(** ** The shape of the instances *)

Lemma product_lengths {A : Type} (ls : list (list A)) :
  Forall (fun combo => length combo = length ls) (product ls).
Proof.
  induction ls as [|l ls IH]; [by repeat constructor|].
  cbn [product]. apply Forall_forall. intros combo Hin.
  apply list_elem_of_bind in Hin as (x & Hin & _).
  apply list_elem_of_fmap in Hin as (rest & -> & Hrest).
  rewrite Forall_forall in IH. cbn [length]. by rewrite (IH rest Hrest).
Qed.

Lemma result_mapM_length {X Y : Type} (f : X -> result Y) (l : list X) ys :
  result_mapM f l = Ok ys -> length ys = length l.
Proof.
  revert ys. induction l as [|x l IH]; intros ys; cbn [result_mapM].
  { by intros [= <-]. }
  destruct (f x); [|done]. destruct (result_mapM f l) as [ys'|]; [|done].
  intros [= <-]. cbn. by rewrite (IH ys').
Qed.

(** X13.  Every instance [all_instances] generates for a concrete
    dataclass binds exactly the declared fields, in declaration order, and
    every instance it generates for a tuple type has as many items as the
    type has arguments. *)
Theorem all_instances_shape :
  (forall name fields vs,
     all_instances (TDataclass name fields) = Ok vs ->
     Forall (fun v => exists kwargs,
                v = VDataclass name kwargs /\ map fst kwargs = map fst fields) vs)
  /\ (forall args vs,
        all_instances (TTuple args) = Ok vs ->
        Forall (fun v => exists items,
                   v = VTuple items /\ length items = length args) vs).
Proof.
  split.
  - intros name fields vs.
    change (all_instances (TDataclass name fields))
      with (result_mapM (fun fld => all_instances fld.2) fields ≫= fun gens =>
            Ok ((fun args => VDataclass name (zip (map fst fields) args))
                  <$> product gens)).
    destruct (result_mapM (fun fld => all_instances fld.2) fields) as [gens|] eqn:E;
      [|done].
    intros [= <-]. apply result_mapM_length in E.
    apply Forall_fmap. eapply Forall_impl; [apply product_lengths|].
    intros combo Hlen. eexists. split; [reflexivity|].
    apply fst_zip. simpl in Hlen. rewrite ?length_map, ?length_fmap. lia.
  - intros args vs.
    change (all_instances (TTuple args))
      with (result_mapM all_instances args ≫= fun gens => Ok (VTuple <$> product gens)).
    destruct (result_mapM all_instances args) as [gens|] eqn:E; [|done].
    intros [= <-]. apply result_mapM_length in E.
    apply Forall_fmap. eapply Forall_impl; [apply product_lengths|].
    intros combo Hlen. exists combo. split; [done|]. simpl in *. lia.
Qed.

Lemma all_instances_shape_witness :
  Forall (fun v => exists kwargs,
            v = VDataclass "Rec" kwargs
            /\ map fst kwargs = ["flag"; "level"]%string)
         [VDataclass "Rec" [("flag"%string, VBool true); ("level"%string, VLiteral (LInt 1))];
          VDataclass "Rec" [("flag"%string, VBool false); ("level"%string, VLiteral (LInt 1))]].
Proof.
  destruct all_instances_shape as [H _].
  exact (H "Rec"%string
           [("flag"%string, TBool); ("level"%string, TLiteral [LInt 1])] _ eq_refl).
Defined.

End FiniteValued.

(** * [kiwilib.flatten] *)

Module Flatten.

Section Flatten.

(** The objects [flatten] meets, as it tells them apart: an iterable that
    is neither a [str] nor a [bytes], with the items its iteration yields;
    anything else (an object without [__iter__], a [str], a [bytes]). *)
Context {A : Type}.

Inductive obj :=
| Leaf (a : A)
| Iter (items : list obj).

(** [levels_to_flatten is None or levels_to_flatten > 0]. *)
Definition descend (levels_to_flatten : option Z) : bool :=
  match levels_to_flatten with
  | None => true
  | Some n => bool_decide (0 < n)
  end.

(** [None if levels_to_flatten is None else levels_to_flatten - 1]. *)
Definition one_less (levels_to_flatten : option Z) : option Z :=
  match levels_to_flatten with
  | None => None
  | Some n => Some (n - 1)
  end.

(** What one pass of the loop body yields for the item [x]. *)
Fixpoint flatten_item (levels_to_flatten : option Z) (x : obj) : list obj :=
  match x with
  | Leaf _ => [x]
  | Iter items =>
      if descend levels_to_flatten
      then concat (map (flatten_item (one_less levels_to_flatten)) items)
      else [x]
  end.

(** [flatten(it, levels_to_flatten)], run to its end, where [it] yields
    the given items. *)
Definition flatten (it : list obj) (levels_to_flatten : option Z) : list obj :=
  concat (map (flatten_item levels_to_flatten) it).

Definition is_leaf (x : obj) : bool :=
  match x with
  | Leaf _ => true
  | Iter _ => false
  end.

(** Induction over objects, through the lists of items. *)
Lemma obj_nested_ind (P : obj -> Prop) :
  (forall a, P (Leaf a)) ->
  (forall items, Forall P items -> P (Iter items)) ->
  forall x, P x.
Proof.
  intros HL HI. fix IH 1. intros [a|items]; [apply HL|].
  apply HI. induction items as [|x l IHl]; constructor; [apply IH|exact IHl].
Qed.

Lemma flatten_nil levels : flatten [] levels = [].
Proof. reflexivity. Qed.

Lemma flatten_cons x it levels :
  flatten (x :: it) levels = flatten_item levels x ++ flatten it levels.
Proof. reflexivity. Qed.

Lemma flatten_app it1 it2 levels :
  flatten (it1 ++ it2) levels = flatten it1 levels ++ flatten it2 levels.
Proof. unfold flatten. by rewrite map_app, concat_app. Qed.

Lemma flatten_item_Iter levels items :
  flatten_item levels (Iter items)
  = if descend levels then flatten items (one_less levels) else [Iter items].
Proof. reflexivity. Qed.

Lemma flatten_stay it n : n <= 0 -> flatten it (Some n) = it.
Proof.
  intros Hn. induction it as [|x it IH]; [done|].
  rewrite flatten_cons, IH. destruct x as [a|items]; [done|].
  rewrite flatten_item_Iter. cbn [descend].
  by rewrite bool_decide_eq_false_2 by lia.
Qed.

Lemma flatten_leaves it levels :
  forallb is_leaf it = true -> flatten it levels = it.
Proof.
  induction it as [|x it IH]; [done|]. cbn [forallb].
  intros [Hx Hit]%andb_true_iff. rewrite flatten_cons, IH by done.
  by destruct x.
Qed.

Lemma flatten_all_leaves_item x : forallb is_leaf (flatten_item None x) = true.
Proof.
  induction x as [a|items IH] using obj_nested_ind; [done|].
  rewrite flatten_item_Iter. cbn [descend one_less]. unfold flatten.
  induction IH as [|x l Hx Hl IHl]; [done|].
  cbn [map concat]. rewrite forallb_app. by rewrite Hx, IHl.
Qed.

Lemma flatten_all_leaves it : forallb is_leaf (flatten it None) = true.
Proof.
  induction it as [|x it IH]; [done|].
  rewrite flatten_cons, forallb_app. by rewrite flatten_all_leaves_item, IH.
Qed.

(** Flattening by [n] levels and then by [m] levels is flattening by
    [n + m] levels; flattening by [n] levels does not change what full
    flattening gives. *)
Lemma flatten_then_item x :
  forall n,
    0 <= n ->
    (forall m, 0 <= m ->
       flatten (flatten_item (Some n) x) (Some m) = flatten_item (Some (n + m)) x)
    /\ flatten (flatten_item (Some n) x) None = flatten_item None x.
Proof.
  induction x as [a|items IH] using obj_nested_ind; intros n Hn.
  { split; [intros m Hm|]; reflexivity. }
  destruct (decide (n = 0)) as [->|Hn0].
  { split; [intros m Hm|].
    - rewrite flatten_item_Iter. cbn [descend]. rewrite bool_decide_eq_false_2 by lia.
      rewrite flatten_cons, flatten_nil, app_nil_r. by rewrite Z.add_0_l.
    - rewrite flatten_item_Iter. cbn [descend]. rewrite bool_decide_eq_false_2 by lia.
      by rewrite flatten_cons, flatten_nil, app_nil_r. }
  rewrite flatten_item_Iter. cbn [descend one_less].
  rewrite bool_decide_eq_true_2 by lia.
  split; [intros m Hm|].
  - rewrite flatten_item_Iter. cbn [descend one_less].
    rewrite bool_decide_eq_true_2 by lia.
    replace (n + m - 1) with ((n - 1) + m) by lia.
    induction IH as [|x l Hx Hl IHl]; [done|].
    rewrite !flatten_cons, flatten_app, IHl.
    destruct (Hx (n - 1)) as [Hx1 _]; [lia|]. by rewrite Hx1.
  - rewrite flatten_item_Iter. cbn [descend one_less].
    induction IH as [|x l Hx Hl IHl]; [done|].
    rewrite !flatten_cons, flatten_app, IHl.
    destruct (Hx (n - 1)) as [_ Hx2]; [lia|]. by rewrite Hx2.
Qed.

(** X8.  [flatten] by levels composes: for [n, m >= 0], flattening the
    result of [flatten(it, n)] by [m] more levels is [flatten(it, n + m)];
    a level count of zero or below leaves the items as they are. *)
Theorem flatten_levels_add (it : list obj) (n m : Z) :
  0 <= n -> 0 <= m ->
  flatten (flatten it (Some n)) (Some m) = flatten it (Some (n + m))
  /\ forall k, k <= 0 -> flatten it (Some k) = it.
Proof.
  intros Hn Hm. split; [|intros k Hk; by apply flatten_stay].
  induction it as [|x it IH]; [done|].
  rewrite !flatten_cons, flatten_app, IH.
  destruct (flatten_then_item x n Hn) as [H _]. by rewrite H.
Qed.

(** X9.  Full flattening ([levels_to_flatten=None]) yields no iterable,
    only the other objects; flattening its result again, fully or by any
    number of levels, changes nothing; and flattening by some levels first
    does not change what full flattening yields. *)
Theorem flatten_full (it : list obj) :
  forallb is_leaf (flatten it None) = true
  /\ (forall levels, flatten (flatten it None) levels = flatten it None)
  /\ (forall n, flatten (flatten it (Some n)) None = flatten it None).
Proof.
  split; [apply flatten_all_leaves|]. split.
  - intros levels. apply flatten_leaves, flatten_all_leaves.
  - intros n. destruct (decide (n <= 0)) as [Hn|Hn].
    { by rewrite flatten_stay. }
    induction it as [|x it IH]; [done|].
    rewrite !flatten_cons, flatten_app, IH.
    destruct (flatten_then_item x n ltac:(lia)) as [_ H]. by rewrite H.
Qed.

End Flatten.

Arguments obj A : clear implicits.

Lemma flatten_levels_add_witness :
  flatten (flatten [Leaf 1; Iter [Leaf 2; Iter [Leaf 3; Iter [Leaf 4]]]] (Some 1)) (Some 1)
  = flatten [Leaf 1; Iter [Leaf 2; Iter [Leaf 3; Iter [Leaf 4]]]] (Some 2)
  /\ forall k, k <= 0 ->
       flatten [Leaf 1; Iter [Leaf 2; Iter [Leaf 3; Iter [Leaf 4]]]] (Some k)
       = [Leaf 1; Iter [Leaf 2; Iter [Leaf 3; Iter [Leaf 4]]]].
Proof.
  apply (flatten_levels_add [Leaf 1; Iter [Leaf 2; Iter [Leaf 3; Iter [Leaf 4]]]] 1 1); lia.
Defined.

End Flatten.

(** * [kiwilib.listEquals] *)

Module ListEquals.

(** The arguments: integers, and lists of such arguments. *)
Inductive pyval :=
| PInt (z : Z)
| PList (items : list pyval).

(** [listEquals(list1, list2)].  An argument that is not a [list] is
    compared with [==] (an [int] is never equal to a [list]); lists of
    different lengths are unequal; otherwise the items are compared place
    by place. *)
Fixpoint listEquals (list1 list2 : pyval) : bool :=
  match list1 with
  | PInt z1 =>
      match list2 with
      | PInt z2 => bool_decide (z1 = z2)
      | PList _ => false
      end
  | PList items1 =>
      match list2 with
      | PInt _ => false
      | PList items2 =>
          if negb (bool_decide (length items1 = length items2)) then false
          else
            (fix places (l1 l2 : list pyval) : bool :=
               match l1, l2 with
               | x1 :: l1', x2 :: l2' => listEquals x1 x2 && places l1' l2'
               | _, _ => true
               end) items1 items2
      end
  end.

Lemma pyval_nested_ind (P : pyval -> Prop) :
  (forall z, P (PInt z)) ->
  (forall items, Forall P items -> P (PList items)) ->
  forall x, P x.
Proof.
  intros HI HL. fix IH 1. intros [z|items]; [apply HI|].
  apply HL. induction items as [|x l IHl]; constructor; [apply IH|exact IHl].
Qed.

Lemma listEquals_eq (list1 : pyval) :
  forall list2, listEquals list1 list2 = true <-> list1 = list2.
Proof.
  induction list1 as [z1|items1 IH] using pyval_nested_ind; intros [z2|items2];
    cbn [listEquals]; try (split; [discriminate|congruence]).
  { rewrite bool_decide_eq_true. split; congruence. }
  destruct (decide (length items1 = length items2)) as [Hlen|Hlen].
  2: { rewrite bool_decide_eq_false_2 by done. cbn. split; [done|].
       intros [= ->]. done. }
  rewrite bool_decide_eq_true_2 by done. cbn [negb].
  revert items2 Hlen.
  induction IH as [|x1 l1 Hx Hl IHl]; intros [|x2 l2] Hlen; try done.
  rewrite andb_true_iff, Hx, (IHl l2) by (cbn in Hlen; lia).
  split; [intros [-> [= ->]]; done|intros [= -> ->]; done].
Qed.

(** X10.  [listEquals] is equality place by place, at every depth: it
    returns [True] exactly when the two arguments are the same nested
    list.  The order of the items counts: a list and a rearrangement of it
    that differs at some place are unequal. *)
Theorem listEquals_is_positional (list1 list2 : pyval) :
  (listEquals list1 list2 = true <-> list1 = list2)
  /\ listEquals (PList [PInt 1; PInt 2]) (PList [PInt 2; PInt 1]) = false.
Proof. split; [apply listEquals_eq|reflexivity]. Qed.

End ListEquals.

(** * [kiwilib.LinkedHeapNode] and [kiwilib.LinkedMinHeap] *)

Module Heap.

(** [_getHeight(treeSize)]: the loop halves [a] while [a > 1]; on a
    positive number that is one step per binary digit after the first.
    ([int(a / 2)] goes through a float; it is the integer half for every
    size below 2^53.) *)
Fixpoint height_pos (p : positive) : Z :=
  match p with
  | xH => 1
  | xO p' => 1 + height_pos p'
  | xI p' => 1 + height_pos p'
  end.

Definition getHeight (treeSize : Z) : Z :=
  match treeSize with
  | Zpos p => height_pos p
  | _ => 1
  end.

(** [round(math.pow(2, e))]: a power of two, and 0 for a negative
    exponent (0.5 and below round to 0). *)
Definition pow2 (e : Z) : Z := 2 ^ e.

Section LinkedMinHeap.

(** Values held by nodes, keys, and the order on keys.  [compF] is applied
    to nodes; it is modelled through the function [compF_val] of the
    node's [val], the only data a [LinkedHeapNode] carries. *)
Context {V K : Type}.
Variable compF_val : V -> K.
Variable leb : K -> K -> bool.

Definition key_lt (a b : K) : bool := negb (leb b a).
Definition key_gt (a b : K) : bool := negb (leb a b).
Definition key_ge (a b : K) : bool := leb b a.

(** A [LinkedHeapNode] object.  Node objects are referred to by address;
    [None] is Python's [None]. *)
Record node := mk_node {
  val : V;
  left : option nat;
  right : option nat;
  parent : option nat
}.

(** The node objects and the attributes of the heap. *)
Record state := mk_state {
  mem : nat -> node;
  last : option nat;
  size : Z;
  head : option nat
}.

Inductive outcome (A : Type) :=
| Ret (a : A) (s : state)
| Exc (e : exn) (s : state)
| OutOfFuel.

Arguments Ret {A} a s.
Arguments Exc {A} e s.
Arguments OutOfFuel {A}.

Definition M (A : Type) : Type := state -> outcome A.

Definition ret {A : Type} (a : A) : M A := fun s => Ret a s.

Definition bind {A B : Type} (m : M A) (k : A -> M B) : M B :=
  fun s =>
    match m s with
    | Ret a s' => k a s'
    | Exc e s' => Exc e s'
    | OutOfFuel => OutOfFuel
    end.

Definition raise {A : Type} (e : exn) : M A := fun s => Exc e s.

Definition out_of_fuel {A : Type} : M A := fun _ => OutOfFuel.

Notation "x <- m ;; k" := (bind m (fun x => k))
  (at level 100, m at next level, right associativity).
Notation "m ;;; k" := (bind m (fun _ => k))
  (at level 100, right associativity).

(** Attribute reads and writes on a node reference; on [None] they raise
    [AttributeError]. *)
Definition read {A : Type} (field : node -> A) (o : option nat) : M A :=
  fun s =>
    match o with
    | None => Exc AttributeError s
    | Some a => Ret (field (mem s a)) s
    end.

Definition upd (m : nat -> node) (a : nat) (n : node) : nat -> node :=
  fun a' => if decide (a' = a) then n else m a'.

Definition write (set : node -> node) (o : option nat) : M unit :=
  fun s =>
    match o with
    | None => Exc AttributeError s
    | Some a =>
        Ret tt (mk_state (upd (mem s) a (set (mem s a))) (last s) (size s) (head s))
    end.

Definition with_val (v : V) (n : node) : node :=
  mk_node v (left n) (right n) (parent n).
Definition with_left (l : option nat) (n : node) : node :=
  mk_node (val n) l (right n) (parent n).
Definition with_right (r : option nat) (n : node) : node :=
  mk_node (val n) (left n) r (parent n).
Definition with_parent (p : option nat) (n : node) : node :=
  mk_node (val n) (left n) (right n) p.

Definition get_last : M (option nat) := fun s => Ret (last s) s.
Definition get_size : M Z := fun s => Ret (size s) s.
Definition get_head : M (option nat) := fun s => Ret (head s) s.
Definition set_last (v : option nat) : M unit :=
  fun s => Ret tt (mk_state (mem s) v (size s) (head s)).
Definition set_size (v : Z) : M unit :=
  fun s => Ret tt (mk_state (mem s) (last s) v (head s)).
Definition set_head (v : option nat) : M unit :=
  fun s => Ret tt (mk_state (mem s) (last s) (size s) v).

(** [if c: body], on an object reference used as a condition. *)
Definition when_some (o : option nat) (body : M unit) : M unit :=
  match o with
  | Some _ => body
  | None => ret tt
  end.

(** [self.compF(x)]. *)
Definition compF (o : option nat) : M K :=
  v <- read val o ;; ret (compF_val v).

(** [__init__] with no items: an empty heap over the given node objects. *)
Definition empty_heap (m : nat -> node) : state := mk_state m None 0 None.

Definition swapWithParent (item : option nat) : M unit :=
  match item with
  | None => ret tt
  | Some _ =>
      tempL <- read left item ;;
      tempR <- read right item ;;
      tempP <- read parent item ;;
      ip <- read parent item ;;
      ipp <- read parent ip ;;
      write (with_parent ipp) item ;;;
      l <- get_last ;;
      (if decide (l = item) then set_last tempP else ret tt) ;;;
      tpp <- read parent tempP ;;
      match tpp with
      | None => set_head item
      | Some _ =>
          tppl <- read left tpp ;;
          if decide (tppl = tempP)
          then write (with_left item) tpp
          else write (with_right item) tpp
      end ;;;
      tpl <- read left tempP ;;
      (if decide (tpl = item) then
         tpr <- read right tempP ;;
         when_some tpr (write (with_parent item) tpr) ;;;
         tpr' <- read right tempP ;;
         write (with_right tpr') item ;;;
         write (with_left tempL) tempP ;;;
         write (with_right tempR) tempP ;;;
         write (with_left tempP) item
       else
         tpl' <- read left tempP ;;
         when_some tpl' (write (with_parent item) tpl') ;;;
         tpl'' <- read left tempP ;;
         write (with_left tpl'') item ;;;
         write (with_left tempL) tempP ;;;
         write (with_right tempR) tempP ;;;
         write (with_right tempP) item) ;;;
      write (with_parent item) tempP ;;;
      when_some tempL (write (with_parent tempP) tempL) ;;;
      when_some tempR (write (with_parent tempP) tempR)
  end.

(** [_swapVals(a, b)]. *)
Definition swapVals (a b : option nat) : M unit :=
  temp <- read val a ;;
  bv <- read val b ;;
  write (with_val bv) a ;;;
  write (with_val temp) b.

(** The loop of [_bubbleUp(item)]. *)
Fixpoint bubbleUp (fuel : nat) (item : option nat) : M unit :=
  match fuel with
  | O => out_of_fuel
  | S fuel' =>
      p <- read parent item ;;
      match p with
      | None => ret tt
      | Some _ =>
          ki <- compF item ;;
          p' <- read parent item ;;
          kp <- compF p' ;;
          if key_lt ki kp then
            l <- get_last ;;
            (if decide (item = l)
             then p'' <- read parent item ;; set_last p''
             else ret tt) ;;;
            swapWithParent item ;;;
            bubbleUp fuel' item
          else ret tt
      end
  end.

(** [child = parent.left; while child.left: child = child.left], entered
    with [child] already assigned. *)
Fixpoint leftmost (fuel : nat) (child : option nat) : M (option nat) :=
  match fuel with
  | O => out_of_fuel
  | S fuel' =>
      cl <- read left child ;;
      match cl with
      | None => ret child
      | Some _ => leftmost fuel' cl
      end
  end.

(** The inner function [_getChild(parent, treeSize)] of [_getNextParent]. *)
Fixpoint getChild (fuel : nat) (parent_ : option nat) (treeSize : Z)
  : M (option nat) :=
  match fuel with
  | O => out_of_fuel
  | S fuel' =>
      if decide (treeSize = 0) then ret None
      else if decide (treeSize < 3) then ret parent_
      else
        let h := getHeight treeSize in
        let nOnAboveLevels := pow2 (h - 1) - 1 in
        let nOnInsertionRow := (treeSize - nOnAboveLevels) `mod` pow2 (h - 1) in
        if decide (nOnInsertionRow = 0) then
          child <- read left parent_ ;;
          leftmost fuel' child
        else if decide (nOnInsertionRow >= pow2 (h - 2)) then
          r <- read right parent_ ;;
          getChild fuel' r (treeSize - pow2 (h - 1))
        else
          l <- read left parent_ ;;
          getChild fuel' l (treeSize - pow2 (h - 2))
  end.

(** [_getNextParent(size=None)]: an absent or zero [size] is replaced by
    [self.size]. *)
Definition getNextParent (fuel : nat) (size_ : option Z) : M (option nat) :=
  sz <- match size_ with
        | None => get_size
        | Some z => if decide (z = 0) then get_size else ret z
        end ;;
  h <- get_head ;;
  getChild fuel h sz.

Definition height : M Z := sz <- get_size ;; ret (getHeight sz).

Definition push (fuel : nat) (item : option nat) : M unit :=
  match item with
  | None => ret tt
  | Some _ =>
      parent_ <- getNextParent fuel None ;;
      sz <- get_size ;;
      match parent_ with
      | None => set_head item
      | Some _ =>
          if decide (sz `mod` 2 = 0)
          then write (with_right item) parent_
          else write (with_left item) parent_
      end ;;;
      sz' <- get_size ;;
      set_size (sz' + 1) ;;;
      set_last item ;;;
      write (with_left None) item ;;;
      write (with_right None) item ;;;
      write (with_parent parent_) item ;;;
      bubbleUp fuel item
  end.

(** The first loop of [pop]: [while out.right: ...]. *)
Fixpoint pop_sift (fuel : nat) (out : option nat) (firstIter : bool) : M unit :=
  match fuel with
  | O => out_of_fuel
  | S fuel' =>
      r <- read right out ;;
      match r with
      | None => ret tt
      | Some _ =>
          l <- read left out ;;
          kl <- compF l ;;
          r' <- read right out ;;
          kr <- compF r' ;;
          (if key_gt kl kr
           then r'' <- read right out ;; swapWithParent r''
           else l' <- read left out ;; swapWithParent l') ;;;
          (if firstIter
           then p <- read parent out ;; set_head p
           else ret tt) ;;;
          pop_sift fuel' out false
      end
  end.

(** [self.last = self.head; while self.last.right: self.last = self.last.right],
    entered after the first assignment. *)
Fixpoint rightmost (fuel : nat) : M unit :=
  match fuel with
  | O => out_of_fuel
  | S fuel' =>
      l <- get_last ;;
      r <- read right l ;;
      match r with
      | None => ret tt
      | Some _ => set_last r ;;; rightmost fuel'
      end
  end.

Definition pop (fuel : nat) : M (option nat) :=
  sz <- get_size ;;
  if decide (sz = 0) then raise IndexError
  else if decide (sz = 1) then
    set_size 0 ;;;
    out <- get_head ;;
    set_head None ;;;
    set_last None ;;;
    ret out
  else
    out <- get_head ;;
    pop_sift fuel out true ;;;
    ol <- read left out ;;
    when_some ol (ol' <- read left out ;; swapWithParent ol') ;;;
    oldLast <- get_last ;;
    out2 <- (if decide (oldLast <> out) then
               swapVals out oldLast ;;;
               bubbleUp fuel out ;;;
               ret oldLast
             else ret out) ;;
    sz' <- get_size ;;
    set_size (sz' - 1) ;;;
    op <- read parent out2 ;;
    opr <- read right op ;;
    match opr with
    | Some _ =>
        op' <- read parent out2 ;;
        opl <- read left op' ;;
        set_last opl ;;;
        op'' <- read parent out2 ;;
        write (with_right None) op''
    | None =>
        h1 <- height ;;
        sz'' <- get_size ;;
        if decide (h1 = getHeight (sz'' + 1)) then
          op' <- read parent out2 ;;
          write (with_left None) op' ;;;
          sz3 <- get_size ;;
          np <- getNextParent fuel (Some (sz3 - 1)) ;;
          npr <- read right np ;;
          set_last npr
        else
          op' <- read parent out2 ;;
          write (with_left None) op' ;;;
          hd <- get_head ;;
          set_last hd ;;;
          rightmost fuel
    end ;;;
    write (with_parent None) out2 ;;;
    ret out2.

(** The loop of [_bubbleDown(node)]; [true] when left through [break]. *)
Fixpoint bubbleDown_loop (fuel : nat) (nd : option nat) (firstIter : bool) : M unit :=
  match fuel with
  | O => out_of_fuel
  | S fuel' =>
      r <- read right nd ;;
      match r with
      | None => ret tt
      | Some _ =>
          l <- read left nd ;;
          kl <- compF l ;;
          r1 <- read right nd ;;
          kr <- compF r1 ;;
          go_right <- (if key_gt kl kr
                       then
                         kn <- compF nd ;;
                         r2 <- read right nd ;;
                         kr2 <- compF r2 ;;
                         ret (key_gt kn kr2)
                       else ret false) ;;
          if go_right : bool then
            r3 <- read right nd ;;
            swapWithParent r3 ;;;
            (if firstIter then p <- read parent nd ;; set_head p else ret tt) ;;;
            bubbleDown_loop fuel' nd false
          else
            l1 <- read left nd ;;
            kl1 <- compF l1 ;;
            r4 <- read right nd ;;
            kr4 <- compF r4 ;;
            go_left <- (if key_lt kl1 kr4
                        then
                          kn <- compF nd ;;
                          l2 <- read left nd ;;
                          kl2 <- compF l2 ;;
                          ret (key_gt kn kl2)
                        else ret false) ;;
            if go_left : bool then
              l3 <- read left nd ;;
              swapWithParent l3 ;;;
              (if firstIter then p <- read parent nd ;; set_head p else ret tt) ;;;
              bubbleDown_loop fuel' nd false
            else ret tt
      end
  end.

Definition bubbleDown (fuel : nat) (nd : option nat) : M unit :=
  bubbleDown_loop fuel nd true ;;;
  l <- read left nd ;;
  match l with
  | None => ret tt
  | Some _ =>
      l' <- read left nd ;;
      kl <- compF l' ;;
      kn <- compF nd ;;
      if key_lt kl kn
      then l'' <- read left nd ;; swapWithParent l''
      else ret tt
  end.

(** [popPush(item)]: the function has no [return] statement, so a call
    that completes returns [None]. *)
Definition popPush (fuel : nat) (item : option nat) : M (option nat) :=
  out <- get_head ;;
  set_head item ;;;
  ol <- read left out ;;
  write (with_left ol) item ;;;
  or <- read right out ;;
  write (with_right or) item ;;;
  il <- read left item ;;
  when_some il (il' <- read left item ;; write (with_parent item) il') ;;;
  ir <- read right item ;;
  when_some ir (ir' <- read right item ;; write (with_parent item) ir') ;;;
  write (with_left None) out ;;;
  write (with_right None) out ;;;
  bubbleDown fuel item ;;;
  ip <- read parent item ;;
  l <- get_last ;;
  (if decide (ip = l) then set_last item else ret tt) ;;;
  ret None.

(** [validate(head)] on a node argument ([head is None] included). *)
Fixpoint validate_node (fuel : nat) (hd : option nat) : M bool :=
  match fuel with
  | O => out_of_fuel
  | S fuel' =>
      match hd with
      | None => ret true
      | Some _ =>
          kh <- compF hd ;;
          p <- read parent hd ;;
          kp <- compF p ;;
          if key_ge kh kp then
            l <- read left hd ;;
            okl <- validate_node fuel' l ;;
            if okl : bool then
              r <- read right hd ;;
              validate_node fuel' r
            else ret false
          else ret false
      end
  end.

(** [validate()], with the default argument. *)
Definition validate (fuel : nat) : M bool :=
  h <- get_head ;;
  match h with
  | None =>
      sz <- get_size ;;
      if decide (sz = 0)
      then l <- get_last ;; ret (bool_decide (l = None))
      else ret false
  | Some _ =>
      sz <- get_size ;;
      if decide (sz > 0) then
        l <- get_last ;;
        if decide (l <> None) then
          h1 <- get_head ;;
          hl <- read left h1 ;;
          okl <- validate_node fuel hl ;;
          if okl : bool then
            h2 <- get_head ;;
            hr <- read right h2 ;;
            validate_node fuel hr
          else ret false
        else ret false
      else ret false
  end.


(** Push the items in order, with [validate()] after every push. *)
Fixpoint push_each (fuel : nat) (items : list nat) : M (list bool) :=
  match items with
  | [] => ret []
  | x :: items' =>
      push fuel (Some x) ;;;
      ok <- validate fuel ;;
      oks <- push_each fuel items' ;;
      ret (ok :: oks)
  end.


(** ** Layouts: the nodes of the tree in level order

    Position 1 is the root; the children of position [p] are [2p] and
    [2p+1], its parent is [p/2]. *)

Definition pos (a : list nat) (p : nat) : option nat :=
  match p with
  | O => None
  | S i => a !! i
  end.

(** The layout with the nodes at two positions exchanged. *)
Definition swap (a : list nat) (p q : nat) : list nat :=
  match pos a p, pos a q with
  | Some x, Some y => <[pred p := y]> (<[pred q := x]> a)
  | _, _ => a
  end.

Lemma pos_Some_range a p x : pos a p = Some x -> (1 <= p <= length a)%nat.
Proof.
  destruct p as [|i]; simpl; [done|]. intros H%lookup_lt_Some. lia.
Qed.

Lemma pos_is_Some a p : (1 <= p <= length a)%nat -> exists x, pos a p = Some x.
Proof.
  intros H. destruct p as [|i]; [lia|]. simpl.
  destruct (lookup_lt_is_Some_2 a i) as [x Hx]; [lia|]. by exists x.
Qed.

Lemma pos_None a p : (p = 0 \/ length a < p)%nat -> pos a p = None.
Proof.
  intros H. destruct p as [|i]; [done|]. simpl. apply lookup_ge_None_2. lia.
Qed.

Lemma pos_None_inv a p : pos a p = None -> (p = 0 \/ length a < p)%nat.
Proof.
  destruct p as [|i]; [by left|]. simpl. intros H%lookup_ge_None. lia.
Qed.

Lemma pos_inj a p q x :
  NoDup a -> pos a p = Some x -> pos a q = Some x -> p = q.
Proof.
  intros Hnd Hp Hq. destruct p as [|i], q as [|j]; simpl in *; try done.
  f_equal. by eapply NoDup_lookup.
Qed.

Lemma pos_elem_of a p x : pos a p = Some x -> x ∈ a.
Proof. destruct p; simpl; [done|]. apply list_elem_of_lookup_2. Qed.

Lemma elem_of_pos a x : x ∈ a -> exists p, pos a p = Some x.
Proof. intros [i Hi]%list_elem_of_lookup_1. by exists (S i). Qed.

Lemma length_swap a p q : length (swap a p q) = length a.
Proof.
  unfold swap. destruct (pos a p), (pos a q); try done.
  by rewrite !length_insert.
Qed.

Lemma pos_swap a p q x y r :
  pos a p = Some x -> pos a q = Some y ->
  pos (swap a p q) r
  = if decide (r = p) then Some y else if decide (r = q) then Some x else pos a r.
Proof.
  intros Hp Hq. unfold swap. rewrite Hp, Hq.
  pose proof (pos_Some_range _ _ _ Hp). pose proof (pos_Some_range _ _ _ Hq).
  destruct r as [|k].
  { rewrite !decide_False by lia. done. }
  simpl. destruct (decide (S k = p)) as [<-|Hne1].
  { simpl. rewrite list_lookup_insert_eq; [done|]. rewrite length_insert. lia. }
  rewrite list_lookup_insert_ne by lia.
  destruct (decide (S k = q)) as [<-|Hne2].
  { simpl. rewrite list_lookup_insert_eq; [done|]. lia. }
  by rewrite list_lookup_insert_ne by lia.
Qed.

Lemma swap_lookup_involution a p q x y :
  pos a p = Some x -> pos a q = Some y ->
  forall r, pos (swap a p q) r
            = pos a (if decide (r = p) then q else if decide (r = q) then p else r).
Proof.
  intros Hp Hq r. rewrite (pos_swap a p q x y) by done.
  repeat case_decide; subst; done.
Qed.

Lemma NoDup_swap a p q : NoDup a -> NoDup (swap a p q).
Proof.
  intros Hnd. destruct (pos a p) as [x|] eqn:Hp; [|unfold swap; by rewrite Hp].
  destruct (pos a q) as [y|] eqn:Hq; [|unfold swap; by rewrite Hp, Hq].
  apply NoDup_alt. intros i j z Hi Hj.
  change (pos (swap a p q) (S i) = Some z) in Hi.
  change (pos (swap a p q) (S j) = Some z) in Hj.
  rewrite (swap_lookup_involution a p q x y) in Hi, Hj by done.
  pose proof (pos_inj _ _ _ _ Hnd Hi Hj) as E.
  repeat case_decide; subst; lia.
Qed.

Lemma elem_of_swap a p q z : z ∈ swap a p q <-> z ∈ a.
Proof.
  destruct (pos a p) as [x|] eqn:Hp; [|unfold swap; by rewrite Hp].
  destruct (pos a q) as [y|] eqn:Hq; [|unfold swap; by rewrite Hp, Hq].
  split.
  - intros [r Hr]%elem_of_pos.
    rewrite (swap_lookup_involution a p q x y) in Hr by done.
    by eapply pos_elem_of.
  - intros [r Hr]%elem_of_pos.
    apply (pos_elem_of _ (if decide (r = p) then q else if decide (r = q) then p else r)).
    rewrite (swap_lookup_involution a p q x y) by done.
    repeat case_decide; subst; try done; congruence.
Qed.

Lemma swap_Permutation a p q : NoDup a -> swap a p q ≡ₚ a.
Proof.
  intros Hnd. apply NoDup_Permutation; [by apply NoDup_swap|done|].
  intros z. apply elem_of_swap.
Qed.

(** ** The shape invariant *)

Definition node_at (a : list nat) (s : state) (p x : nat) : Prop :=
  left (mem s x) = pos a (2 * p)
  /\ right (mem s x) = pos a (2 * p + 1)
  /\ parent (mem s x) = pos a (p / 2).

(** The node objects of the layout are linked as a complete binary tree. *)
Definition shape (a : list nat) (s : state) : Prop :=
  NoDup a /\ forall p x, pos a p = Some x -> node_at a s p x.

Lemma upd_eq (m : nat -> node) a n : upd m a n a = n.
Proof. unfold upd. by rewrite decide_True. Qed.


Lemma node_eta (n : node) : n = mk_node (val n) (left n) (right n) (parent n).
Proof. by destruct n. Qed.

(** Division and remainder by constants, for [lia]. *)
Ltac Zify.zify_post_hook ::= Z.to_euclidean_division_equations.

Lemma half_lt p : (2 <= p -> 1 <= p / 2 < p)%nat.
Proof.
  intros H. split.
  - apply Nat.div_le_lower_bound; lia.
  - apply Nat.div_lt; lia.
Qed.

Lemma half_double p : (2 <= p -> 1 <= p / 2 < p /\ (p = 2 * (p / 2) \/ p = 2 * (p / 2) + 1))%nat.
Proof. intros. lia. Qed.

Lemma shape_node a s p x :
  shape a s -> pos a p = Some x ->
  mem s x = mk_node (val (mem s x)) (pos a (2 * p)) (pos a (2 * p + 1)) (pos a (p / 2)).
Proof.
  intros [_ Hs] Hp. destruct (Hs p x Hp) as (Hl & Hr & Hpar).
  rewrite (node_eta (mem s x)) at 1. by rewrite Hl, Hr, Hpar.
Qed.


(** ** Reading fields through writes *)

(** A write through a reference that may be [None] (then nothing is
    written). *)
Definition updo (m : nat -> node) (o : option nat) (f : node -> node) : nat -> node :=
  match o with
  | None => m
  | Some a => upd m a (f (m a))
  end.

Definition set_mem (s : state) (m : nat -> node) : state :=
  mk_state m (last s) (size s) (head s).

Lemma bind_write {B : Type} f a (k : unit -> M B) s :
  bind (write f (Some a)) k s = k tt (set_mem s (updo (mem s) (Some a) f)).
Proof. reflexivity. Qed.

Lemma bind_when_some_write {B : Type} f o (k : unit -> M B) s :
  bind (when_some o (write f o)) k s = k tt (set_mem s (updo (mem s) o f)).
Proof. by destruct o, s. Qed.

Lemma bind_assoc {A B C : Type} (m : M A) (k1 : A -> M B) (k2 : B -> M C) s :
  bind (bind m k1) k2 s = bind m (fun x => bind (k1 x) k2) s.
Proof. unfold bind. by destruct (m s). Qed.

Lemma bind_set_last_if {B : Type} (c : Prop) (d : Decision c) v (k : unit -> M B) s :
  bind (if d then set_last v else ret tt) k s
  = k tt (mk_state (mem s) (if d then v else last s) (size s) (head s)).
Proof. by destruct d, s. Qed.

Lemma run_write f a s :
  write f (Some a) s = Ret tt (set_mem s (updo (mem s) (Some a) f)).
Proof. reflexivity. Qed.

Lemma run_when_some_write f o s :
  when_some o (write f o) s = Ret tt (set_mem s (updo (mem s) o f)).
Proof. by destruct o, s. Qed.

Ltac updo_field :=
  intros; unfold updo, upd;
  repeat match goal with
         | |- context [match ?o with Some _ => _ | None => _ end] => destruct o
         | |- context [decide ?P] => destruct (decide P)
         end; simplify_eq; try done.

Lemma val_updo_val m o v z :
  val (updo m o (with_val v) z) = if decide (o = Some z) then v else val (m z).
Proof. updo_field. Qed.
Lemma val_updo_left m o v z : val (updo m o (with_left v) z) = val (m z).
Proof. updo_field. Qed.
Lemma val_updo_right m o v z : val (updo m o (with_right v) z) = val (m z).
Proof. updo_field. Qed.
Lemma val_updo_parent m o v z : val (updo m o (with_parent v) z) = val (m z).
Proof. updo_field. Qed.

Lemma left_updo_val m o v z : left (updo m o (with_val v) z) = left (m z).
Proof. updo_field. Qed.
Lemma left_updo_left m o v z :
  left (updo m o (with_left v) z) = if decide (o = Some z) then v else left (m z).
Proof. updo_field. Qed.
Lemma left_updo_right m o v z : left (updo m o (with_right v) z) = left (m z).
Proof. updo_field. Qed.
Lemma left_updo_parent m o v z : left (updo m o (with_parent v) z) = left (m z).
Proof. updo_field. Qed.

Lemma right_updo_val m o v z : right (updo m o (with_val v) z) = right (m z).
Proof. updo_field. Qed.
Lemma right_updo_left m o v z : right (updo m o (with_left v) z) = right (m z).
Proof. updo_field. Qed.
Lemma right_updo_right m o v z :
  right (updo m o (with_right v) z) = if decide (o = Some z) then v else right (m z).
Proof. updo_field. Qed.
Lemma right_updo_parent m o v z : right (updo m o (with_parent v) z) = right (m z).
Proof. updo_field. Qed.

Lemma parent_updo_val m o v z : parent (updo m o (with_val v) z) = parent (m z).
Proof. updo_field. Qed.
Lemma parent_updo_left m o v z : parent (updo m o (with_left v) z) = parent (m z).
Proof. updo_field. Qed.
Lemma parent_updo_right m o v z : parent (updo m o (with_right v) z) = parent (m z).
Proof. updo_field. Qed.
Lemma parent_updo_parent m o v z :
  parent (updo m o (with_parent v) z) = if decide (o = Some z) then v else parent (m z).
Proof. updo_field. Qed.

Create Rewrite HintDb updo.
#[local] Hint Rewrite val_updo_val val_updo_left val_updo_right val_updo_parent
  left_updo_val left_updo_left left_updo_right left_updo_parent
  right_updo_val right_updo_left right_updo_right right_updo_parent
  parent_updo_val parent_updo_left parent_updo_right parent_updo_parent : updo.

(** ** Symbolic execution of the methods *)

Ltac mcbn :=
  cbn [bind ret raise read get_last get_size get_head set_last set_size
       set_head compF mem last size head set_mem].

Ltac base_fields :=
  match goal with
  | H : left (?m ?z) = _ |- context [left (?m ?z)] => rewrite H
  | H : right (?m ?z) = _ |- context [right (?m ?z)] => rewrite H
  | H : parent (?m ?z) = _ |- context [parent (?m ?z)] => rewrite H
  end.

(** Decide [o = Some z] from the positions of the nodes. *)
Ltac pos_eq_tac Hnd :=
  first
    [ assumption
    | reflexivity
    | match goal with
      | Hz : pos ?a _ = Some ?z |- pos ?a _ = Some ?z => rewrite <- Hz; f_equal; lia
      | Hz : pos ?a _ = Some ?z, Hy : pos ?a _ = Some ?y |- Some ?y = Some ?z =>
          rewrite <- Hz, <- Hy; f_equal; lia
      end ].

Ltac pos_neq_tac Hnd :=
  let E := fresh "E" in
  intros E;
  first
    [ discriminate E
    | match goal with
      | Hz : pos ?a _ = Some ?z |- _ =>
          match type of E with
          | pos a _ = Some z => pose proof (pos_inj _ _ _ _ Hnd E Hz); lia
          | Some ?y = Some z =>
              match goal with
              | Hy : pos a _ = Some y |- _ =>
                  injection E as E; rewrite E in Hy;
                  pose proof (pos_inj _ _ _ _ Hnd Hy Hz); lia
              end
          end
      end ].

Ltac pos_decide Hnd :=
  match goal with
  | |- context [decide (?o = Some ?z)] =>
      first [ rewrite (decide_True (P := o = Some z)) by (assumption || reflexivity)
            | rewrite (decide_False (P := o = Some z)) by assumption
            | rewrite (decide_False (P := o = Some z)) by pos_neq_tac Hnd
            | rewrite (decide_True (P := o = Some z)) by pos_eq_tac Hnd ]
  end.

Ltac mstep_head :=
  lazymatch goal with
  | |- bind (bind _ _) _ _ = _ => rewrite bind_assoc
  | |- bind (write _ (Some _)) _ _ = _ => rewrite bind_write
  | |- bind (if _ then set_last _ else ret tt) _ _ = _ => rewrite bind_set_last_if
  | |- bind (when_some ?o (write _ ?o)) _ _ = _ => rewrite bind_when_some_write
  | |- write _ (Some _) _ = _ => rewrite run_write
  | |- when_some ?o (write _ ?o) _ = _ => rewrite run_when_some_write
  end.

Ltac mrun Hnd :=
  repeat first
    [ mstep_head
    | progress unfold set_mem
    | progress mcbn
    | progress autorewrite with updo
    | base_fields
    | rewrite decide_True by assumption
    | rewrite decide_False by assumption
    | pos_decide Hnd ].

Ltac nat_decide :=
  match goal with
  | |- context [decide (?e1 = ?e2 :> nat)] =>
      first [ rewrite (decide_False (P := e1 = e2)) by lia
            | rewrite (decide_True (P := e1 = e2)) by lia ]
  end.

Ltac pos_close :=
  first
    [ done
    | match goal with
      | H : pos ?a _ = Some ?y |- Some ?y = pos ?a _ => rewrite <- H; f_equal; lia
      | H : pos ?a _ = Some ?y |- pos ?a _ = Some ?y => rewrite <- H; f_equal; lia
      | |- None = pos _ _ => symmetry; apply pos_None; lia
      | |- pos _ _ = None => apply pos_None; lia
      | |- pos ?a _ = pos ?a _ => f_equal; lia
      end ].

Ltac fields_solve Hnd :=
  unfold set_mem; cbn [mem last size head];
  autorewrite with updo;
  repeat first [ pos_decide Hnd | base_fields | nat_decide ];
  repeat split; try pos_close.

Lemma swapWithParent_aux a m l sz h p pp x xp :
  shape a (mk_state m l sz h) ->
  pos a p = Some x -> pos a pp = Some xp ->
  (p = 2 * pp \/ p = 2 * pp + 1)%nat ->
  exists s',
    swapWithParent (Some x) (mk_state m l sz h) = Ret tt s'
    /\ shape (swap a p pp) s'
    /\ (forall z, val (mem s' z) = val (m z))
    /\ size s' = sz
    /\ head s' = (if decide (pp = 1)%nat then Some x else h)
    /\ last s' = (if decide (l = Some x) then Some xp else l).
Proof.
  intros [Hnd Hsh] Hp Hxp Hpar.
  pose proof (pos_Some_range _ _ _ Hp) as Hrange.
  pose proof (pos_Some_range _ _ _ Hxp) as Hrange'.
  destruct (Hsh _ _ Hp) as (Lx & Rx & Px).
  destruct (Hsh _ _ Hxp) as (Lxp & Rxp & Pxp).
  cbn [mem] in *.
  replace (p / 2)%nat with pp in Px by lia. rewrite Hxp in Px.
  set (gp := (pp / 2)%nat) in *.
  assert (pp = 2 * gp \/ pp = 2 * gp + 1)%nat as Hgpar by lia.
  clearbody gp.
  unfold swapWithParent.
  (destruct (pos a gp) as [g|] eqn:Hg;
     [ destruct (Hsh _ _ Hg) as (Lg & Rg & _); cbn [mem] in *;
       pose proof (pos_Some_range _ _ _ Hg) as Hrange'';
       destruct Hgpar as [Hgpar|Hgpar]
     | apply pos_None_inv in Hg; assert (pp = 1)%nat as Hpp1 by lia;
       assert (gp = 0)%nat as Hgp0 by lia; clear Hg Hgpar ]);
    (destruct Hpar as [Hpar|Hpar]).
  all: (eexists; split; [mrun Hnd; reflexivity|]).
  all: unfold set_mem; cbn [mem last size head].
  all: split; [|split; [intros z; by autorewrite with updo|]].
  all: try (split; [done|]; split; [by fields_solve Hnd|done]).
  all: (split; [by apply NoDup_swap|]).
  all: intros r z Hz; rewrite (pos_swap a p pp x xp) in Hz by done.
  all: unfold node_at; rewrite !(pos_swap a p pp x xp) by done; cbn [mem].
  all: autorewrite with updo.
  all: destruct (decide (r = p)) as [Hrp|Hrp];
    [injection Hz as <-;
     set (rh := (r / 2)%nat) in *; assert (rh = pp) as Hrh by lia; clearbody rh;
     fields_solve Hnd|].
  all: destruct (decide (r = pp)) as [Hrpp|Hrpp];
    [injection Hz as <-;
     set (rh := (r / 2)%nat) in *; assert (rh = gp) as Hrh by lia; clearbody rh;
     fields_solve Hnd|].
  all: destruct (Hsh _ _ Hz) as (Lz & Rz & Pz); cbn [mem] in Lz, Rz, Pz;
    pose proof (pos_Some_range _ _ _ Hz) as Hrr.
  all: split; [|split].
  all: lazymatch goal with
       | |- context [Nat.div _ 2] =>
           set (rh := (r / 2)%nat) in *;
           assert (r = 2 * rh \/ r = 2 * rh + 1)%nat as Hrh by lia; clearbody rh;
           destruct (decide (rh = pp)) as [Hr2|Hr2];
           [fields_solve Hnd|];
           destruct (decide (rh = p)) as [Hr4|Hr4];
           [destruct Hrh as [Hrh|Hrh]; fields_solve Hnd|];
           fields_solve Hnd
       | |- _ =>
           destruct (decide (r = gp)) as [Hr1|Hr1];
           [fields_solve Hnd|fields_solve Hnd]
       end.
Qed.

(** [_swapWithParent(item)] on a node that has a parent: the two nodes
    exchange their places in the tree; values are not touched. *)
Lemma swapWithParent_spec a s p x :
  shape a s -> pos a p = Some x -> (2 <= p)%nat ->
  exists s',
    swapWithParent (Some x) s = Ret tt s'
    /\ shape (swap a p (p / 2)) s'
    /\ (forall z, val (mem s' z) = val (mem s z))
    /\ size s' = size s
    /\ head s' = (if decide (p / 2 = 1)%nat then Some x else head s)
    /\ last s' = (if decide (last s = Some x) then pos a (p / 2) else last s).
Proof.
  intros Hsh Hp Hp2. destruct s as [m l sz h].
  pose proof (pos_Some_range _ _ _ Hp) as Hrange.
  destruct (pos_is_Some a (p / 2)) as [xp Hxp]; [lia|].
  destruct (swapWithParent_aux a m l sz h p (p / 2) x xp Hsh Hp Hxp) as (s' & H);
    [lia|].
  exists s'. cbn [mem last size head]. by rewrite Hxp.
Qed.

(** ** Heap order *)

Hypothesis leb_total : forall k1 k2 : K, leb k1 k2 = true \/ leb k2 k1 = true.
Hypothesis leb_trans :
  forall k1 k2 k3 : K, leb k1 k2 = true -> leb k2 k3 = true -> leb k1 k3 = true.

Lemma leb_refl k1 : leb k1 k1 = true.
Proof. by destruct (leb_total k1 k1). Qed.

Lemma leb_false k1 k2 : leb k1 k2 = false -> leb k2 k1 = true.
Proof. intros H. destruct (leb_total k1 k2); congruence. Qed.

(** The key a node holds. *)
Definition key_of (s : state) (x : nat) : K := compF_val (val (mem s x)).

(** The node at position [q] is not below its parent in the order. *)
Definition edge (k : nat -> K) (a : list nat) (q : nat) : Prop :=
  forall x y, pos a q = Some x -> pos a (q / 2) = Some y -> leb (k y) (k x) = true.

(** Heap order among the first [m] positions. *)
Definition ordered (k : nat -> K) (m : nat) (a : list nat) : Prop :=
  forall q, (q <= m)%nat -> edge k a q.

(** Heap order but for the node at position [i], which may be smaller than
    its parent; its children are not below its parent. *)
Definition ordered_up (k : nat -> K) (m : nat) (a : list nat) (i : nat) : Prop :=
  (forall q, (q <= m)%nat -> q <> i -> edge k a q)
  /\ (forall c x y, (c <= m)%nat -> (c / 2)%nat = i ->
        pos a c = Some x -> pos a (i / 2) = Some y -> leb (k y) (k x) = true).

(** Heap order but for the node at position [i], which may be out of order
    with its parent and with its children; its children are not below its
    parent. *)
Definition ordered_down (k : nat -> K) (m : nat) (a : list nat) (i : nat) : Prop :=
  (forall q, (q <= m)%nat -> q <> i -> (q / 2)%nat <> i -> edge k a q)
  /\ (forall c x y, (c <= m)%nat -> (c / 2)%nat = i ->
        pos a c = Some x -> pos a (i / 2) = Some y -> leb (k y) (k x) = true).

Lemma ordered_up_done k m a i :
  ordered_up k m a i -> edge k a i -> ordered k m a.
Proof.
  intros [H1 _] Hi q Hq. destruct (decide (q = i)) as [->|Hne]; [done|].
  by apply H1.
Qed.


Lemma ordered_up_swap k m a p x xp :
  NoDup a -> pos a p = Some x -> pos a (p / 2) = Some xp ->
  (2 <= p <= m)%nat ->
  leb (k xp) (k x) = false ->
  ordered_up k m a p ->
  ordered_up k m (swap a p (p / 2)) (p / 2).
Proof.
  intros Hnd Hp Hxp Hpm Hlt [H1 H2].
  apply leb_false in Hlt.
  split.
  - intros q Hq Hne x1 y1.
    rewrite !(pos_swap a p (p / 2) x xp) by done.
    destruct (decide (q = p)) as [->|Hqp].
    { rewrite decide_False by lia. rewrite decide_True by done.
      intros [= <-] [= <-]. done. }
    rewrite decide_False by done.
    destruct (decide (q / 2 = p)%nat) as [Hc|Hc].
    { intros Hx1 [= <-]. by eapply (H2 q). }
    destruct (decide (q / 2 = p / 2)%nat) as [Hs|Hs].
    { intros Hx1 [= <-]. eapply leb_trans; [exact Hlt|].
      apply (H1 q Hq Hqp x1 xp Hx1). by rewrite Hs. }
    intros Hx1 Hy1. by apply (H1 q Hq Hqp).
  - intros c x1 y1 Hc Hc2.
    rewrite !(pos_swap a p (p / 2) x xp) by done.
    rewrite (decide_False (P := (p / 2 / 2)%nat = p)) by lia.
    rewrite (decide_False (P := (p / 2 / 2)%nat = (p / 2)%nat)).
    2: { intros E. pose proof (pos_Some_range _ _ _ Hxp). lia. }
    rewrite (decide_False (P := c = (p / 2)%nat)) by lia.
    destruct (decide (c = p)) as [->|Hcp].
    { intros [= <-] Hy1. apply (H1 (p / 2)%nat); [lia|lia|done|done]. }
    intros Hx1 Hy1. eapply leb_trans.
    + apply (H1 (p / 2)%nat); [lia|lia|exact Hxp|exact Hy1].
    + apply (H1 c Hc Hcp x1 xp Hx1). by rewrite Hc2.
Qed.

Lemma ordered_down_swap k m a c x xc :
  NoDup a -> pos a c = Some xc -> pos a (c / 2) = Some x ->
  (2 <= c <= m)%nat ->
  (forall c' x', (c' / 2 = c / 2)%nat -> pos a c' = Some x' ->
                 leb (k xc) (k x') = true) ->
  ordered_down k m a (c / 2) ->
  ordered_down k m (swap a c (c / 2)) c.
Proof.
  intros Hnd Hc Hx Hcm Hmin [H1 H2].
  split.
  - intros q Hq Hqc Hq2 x1 y1.
    rewrite !(pos_swap a c (c / 2) xc x) by done.
    rewrite (decide_False (P := q = c)) by done.
    rewrite (decide_False (P := (q / 2)%nat = c)) by done.
    destruct (decide (q = c / 2)%nat) as [->|Hqi].
    { intros [= <-]. rewrite decide_False.
      2: { pose proof (pos_Some_range _ _ _ Hx). lia. }
      intros Hy1. apply (H2 c xc y1); [lia|done|done|done]. }
    destruct (decide (q / 2 = c / 2)%nat) as [Hs|Hs].
    { intros Hx1 [= <-]. by apply (Hmin q). }
    intros Hx1 Hy1. by apply (H1 q).
  - intros cc x1 y1 Hcc Hcc2.
    rewrite !(pos_swap a c (c / 2) xc x) by done.
    rewrite (decide_False (P := cc = c)) by lia.
    rewrite (decide_False (P := cc = (c / 2)%nat)) by lia.
    rewrite (decide_False (P := (c / 2)%nat = c)) by lia.
    rewrite decide_True by done.
    intros Hx1 [= <-].
    apply (H1 cc); [done|lia|lia|done|]. by rewrite Hcc2.
Qed.

(** ** The heap invariant *)

(** The attributes of the heap agree with the layout. *)
Definition wf (a : list nat) (s : state) : Prop :=
  shape a s
  /\ size s = Z.of_nat (length a)
  /\ head s = pos a 1
  /\ last s = pos a (length a).

Definition same_vals (s s' : state) : Prop :=
  forall z, val (mem s' z) = val (mem s z).

Lemma same_vals_key s s' z : same_vals s s' -> key_of s' z = key_of s z.
Proof. intros H. unfold key_of. by rewrite H. Qed.

Lemma same_vals_trans s1 s2 s3 :
  same_vals s1 s2 -> same_vals s2 s3 -> same_vals s1 s3.
Proof. intros H1 H2 z. by rewrite H2, H1. Qed.

Lemma edge_ext k k' a q : (forall z, k' z = k z) -> edge k a q -> edge k' a q.
Proof. intros E H x y Hx Hy. rewrite !E. by apply H. Qed.

Lemma ordered_ext k k' m a : (forall z, k' z = k z) -> ordered k m a -> ordered k' m a.
Proof. intros E H q Hq. by apply (edge_ext k), H. Qed.

Lemma ordered_up_ext k k' m a i :
  (forall z, k' z = k z) -> ordered_up k m a i -> ordered_up k' m a i.
Proof.
  intros E [H1 H2]. split.
  - intros q Hq Hqi. by apply (edge_ext k), H1.
  - intros c x y Hc Hc2 Hx Hy. rewrite !E. by eapply H2.
Qed.

Lemma ordered_down_ext k k' m a i :
  (forall z, k' z = k z) -> ordered_down k m a i -> ordered_down k' m a i.
Proof.
  intros E [H1 H2]. split.
  - intros q Hq Hqi Hq2. by apply (edge_ext k), H1.
  - intros c x y Hc Hc2 Hx Hy. rewrite !E. by eapply H2.
Qed.

(** A swap keeps the heap attributes in step with the layout. *)
Lemma wf_swap a s p x :
  wf a s -> pos a p = Some x -> (2 <= p)%nat ->
  exists s',
    swapWithParent (Some x) s = Ret tt s'
    /\ wf (swap a p (p / 2)) s'
    /\ same_vals s s'.
Proof.
  intros (Hsh & Hsz & Hhd & Hla) Hp Hp2.
  destruct (swapWithParent_spec a s p x Hsh Hp Hp2)
    as (s' & Hrun & Hsh' & Hv & Hsz' & Hhd' & Hla').
  pose proof (pos_Some_range _ _ _ Hp) as Hrange.
  destruct (pos_is_Some a (p / 2)) as [xp Hxp]; [lia|].
  exists s'. split; [done|]. split; [|done].
  split; [done|]. rewrite length_swap. split; [lia|].
  rewrite !(pos_swap a p (p / 2) x xp) by done.
  rewrite Hhd', Hla', Hhd, Hla. split.
  - rewrite (decide_False (P := 1%nat = p)) by lia.
    destruct (decide (p / 2 = 1)%nat) as [E|E].
    + by rewrite decide_True.
    + by rewrite decide_False.
  - destruct (decide (length a = p)) as [E|E].
    + rewrite decide_True by (by rewrite E). done.
    + rewrite decide_False.
      2: { intros E'. apply E. destruct Hsh as [Hnd _]. by eapply pos_inj. }
      by rewrite decide_False by lia.
Qed.

Arguments swapWithParent : simpl never.

Lemma wf_swap_last a s p x l1 :
  wf a s -> pos a p = Some x -> (2 <= p)%nat ->
  (l1 = last s \/ (last s = Some x /\ l1 = pos a (p / 2))) ->
  exists s',
    swapWithParent (Some x) (mk_state (mem s) l1 (size s) (head s)) = Ret tt s'
    /\ wf (swap a p (p / 2)) s'
    /\ same_vals s s'.
Proof.
  intros Hwf Hp Hp2 [->|[Hl ->]].
  { destruct s; by apply wf_swap. }
  destruct Hwf as (Hsh & Hsz & Hhd & Hla).
  pose proof (pos_Some_range _ _ _ Hp) as Hrange.
  destruct (pos_is_Some a (p / 2)) as [xp Hxp]; [lia|].
  assert (Hsh1 : shape a (mk_state (mem s) (pos a (p / 2)) (size s) (head s))).
  { destruct Hsh as [Hnd Hs]. split; [done|]. intros q z Hq. apply (Hs q z Hq). }
  destruct (swapWithParent_spec a _ p x Hsh1 Hp Hp2)
    as (s' & Hrun & Hsh' & Hv & Hsz' & Hhd' & Hla').
  cbn [mem last size head] in *.
  exists s'. split; [done|]. split; [|done].
  split; [done|]. rewrite length_swap. split; [lia|].
  rewrite !(pos_swap a p (p / 2) x xp) by done.
  rewrite Hhd', Hla', Hhd. split.
  - rewrite (decide_False (P := 1%nat = p)) by lia.
    destruct (decide (p / 2 = 1)%nat) as [E|E].
    + by rewrite decide_True.
    + by rewrite decide_False.
  - assert (length a = p) as E.
    { destruct Hsh as [Hnd _]. rewrite Hla in Hl. by eapply pos_inj. }
    rewrite (decide_True (P := length a = p)) by done.
    rewrite Hxp. rewrite decide_False; [done|].
    intros [= E']. subst xp. destruct Hsh as [Hnd _].
    pose proof (pos_inj _ _ _ _ Hnd Hp Hxp). lia.
Qed.

(** The loop of [_bubbleUp] from position [p]: the node moves up until it
    is in order with its parent. *)
Lemma bubbleUp_spec fuel : forall a s p x m,
  wf a s -> pos a p = Some x -> (p <= fuel)%nat -> (p <= m)%nat ->
  ordered_up (key_of s) m a p ->
  exists s' a',
    bubbleUp fuel (Some x) s = Ret tt s'
    /\ wf a' s'
    /\ a' ≡ₚ a
    /\ same_vals s s'
    /\ ordered (key_of s') m a'
    /\ (forall q, (p < q)%nat -> pos a' q = pos a q).
Proof.
  induction fuel as [|fuel IH]; intros a s p x m Hwf Hp Hfuel Hpm Hord.
  { pose proof (pos_Some_range _ _ _ Hp). lia. }
  pose proof (pos_Some_range _ _ _ Hp) as Hrange.
  pose proof Hwf as (Hsh & Hsz & Hhd & Hla).
  pose proof Hsh as [Hnd Hnodes].
  destruct (Hnodes _ _ Hp) as (_ & _ & Px).
  cbn [bubbleUp]. mcbn. rewrite Px.
  destruct (decide (p = 1%nat)) as [->|Hp1].
  { simpl. exists s, a. split; [done|]. split; [done|]. split; [done|].
    split; [done|]. split; [|done].
    apply (ordered_up_done _ _ _ 1%nat); [done|]. intros x' y' _ Hy. done. }
  destruct (pos_is_Some a (p / 2)) as [xp Hxp]; [lia|].
  rewrite Hxp. mcbn. rewrite Px, Hxp. mcbn.
  fold (key_of s x) (key_of s xp).
  unfold key_lt. destruct (leb (key_of s xp) (key_of s x)) eqn:Hcmp; simpl.
  { exists s, a. split; [done|]. split; [done|]. split; [done|].
    split; [done|]. split; [|done].
    apply (ordered_up_done _ _ _ p); [done|]. intros x' y' Hx' Hy'.
    rewrite Hp in Hx'. rewrite Hxp in Hy'. by simplify_eq. }
  destruct (wf_swap_last a s p x
              (if decide (Some x = last s) then Some xp else last s))
    as (s1 & Hrun1 & Hwf1 & Hv1); [done|done|lia| |].
  { destruct (decide (Some x = last s)) as [E|E]; [right|left]; by rewrite ?Hxp. }
  destruct (IH (swap a p (p / 2)) s1 (p / 2)%nat x m) as (s' & a' & Hrun' & Hwf' & Hperm & Hv' & Hord' & Hpos').
  { done. }
  { rewrite (pos_swap a p (p / 2) x xp) by done.
    rewrite decide_False by lia. by rewrite decide_True. }
  { lia. }
  { lia. }
  { apply (ordered_up_ext (key_of s)); [intros z; by apply same_vals_key|].
    apply (ordered_up_swap _ _ _ _ x xp); [done|done|done|lia|done|done]. }
  exists s', a'.
  split.
  { mcbn. destruct (decide (Some x = last s)) as [E|E]; mcbn.
    - rewrite Px, Hxp. mcbn. unfold bind. rewrite Hrun1. exact Hrun'.
    - unfold bind. cbn [ret]. clear -Hrun1 Hrun'. destruct s.
      cbn [mem last size head] in *. rewrite Hrun1. exact Hrun'. }
  split; [done|]. split.
  { rewrite Hperm. by apply swap_Permutation. }
  split; [by eapply same_vals_trans|]. split; [done|].
  intros q Hq. rewrite Hpos' by lia.
  rewrite (pos_swap a p (p / 2) x xp) by done.
  by rewrite !decide_False by lia.
Qed.

Lemma set_head_same (s : state) v : head s = v -> mk_state (mem s) (last s) (size s) v = s.
Proof. intros <-. by destruct s. Qed.


(** ** Tree-shape arithmetic *)

Lemma height_pos_bounds p :
  1 <= height_pos p /\ 2 ^ (height_pos p - 1) <= Zpos p < 2 ^ height_pos p.
Proof.
  induction p as [p [IH1 IH2]|p [IH1 IH2]|]; cbn [height_pos].
  - replace (1 + height_pos p - 1) with (Z.succ (height_pos p - 1)) by lia.
    replace (1 + height_pos p) with (Z.succ (height_pos p)) by lia.
    rewrite !Z.pow_succ_r by lia. lia.
  - replace (1 + height_pos p - 1) with (Z.succ (height_pos p - 1)) by lia.
    replace (1 + height_pos p) with (Z.succ (height_pos p)) by lia.
    rewrite !Z.pow_succ_r by lia. lia.
  - simpl. lia.
Qed.

Lemma getHeight_bounds t :
  1 <= t -> 1 <= getHeight t /\ 2 ^ (getHeight t - 1) <= t < 2 ^ getHeight t.
Proof.
  intros Ht. destruct t as [|p|p]; try lia. apply height_pos_bounds.
Qed.

Lemma getHeight_unique t h :
  1 <= h -> 2 ^ (h - 1) <= t < 2 ^ h -> getHeight t = h.
Proof.
  intros Hh Hb.
  assert (1 <= t) as Ht.
  { pose proof (Z.pow_pos_nonneg 2 (h - 1)). lia. }
  destruct (getHeight_bounds t Ht) as [Hg1 Hg2].
  destruct (Z.lt_trichotomy (getHeight t) h) as [Hlt|[Heq|Hgt]]; [|done|].
  - pose proof (Z.pow_le_mono_r 2 (getHeight t) (h - 1)). lia.
  - pose proof (Z.pow_le_mono_r 2 h (getHeight t - 1)). lia.
Qed.

(** The powers of two as natural numbers and as integers. *)
Lemma pow2_nat d : pow2 (Z.of_nat d) = Z.of_nat (2 ^ d).
Proof.
  unfold pow2. rewrite Nat2Z.inj_pow. done.
Qed.

Lemma pow2_nat_pos d : (1 <= 2 ^ d)%nat.
Proof. induction d; simpl; lia. Qed.

Lemma getHeight_pow d o :
  (o < 2 ^ d)%nat -> getHeight (Z.of_nat (2 ^ d + o)) = Z.of_nat d + 1.
Proof.
  intros Ho. apply getHeight_unique; [lia|].
  replace (Z.of_nat d + 1 - 1) with (Z.of_nat d) by lia.
  replace (Z.of_nat d + 1) with (Z.succ (Z.of_nat d)) by lia.
  rewrite Z.pow_succ_r by lia.
  change (2 ^ Z.of_nat d) with (pow2 (Z.of_nat d)). rewrite pow2_nat. lia.
Qed.


(** The descent along left children stops at the last existing position
    [q * 2^e]. *)
Lemma leftmost_spec e : forall fuel a s q xq,
  shape a s -> pos a q = Some xq ->
  (q * 2 ^ e <= length a < q * 2 ^ (S e))%nat ->
  (e < fuel)%nat ->
  leftmost fuel (Some xq) s = Ret (pos a (q * 2 ^ e)) s.
Proof.
  induction e as [|e IH]; intros fuel a s q xq Hsh Hq Hb Hfuel;
    (destruct fuel as [|fuel]; [lia|]);
    pose proof Hsh as [Hnd Hnodes];
    destruct (Hnodes _ _ Hq) as (Lq & _ & _);
    cbn [leftmost]; mcbn; rewrite Lq.
  - rewrite pos_None by (simpl in Hb; lia). mcbn.
    replace (q * 2 ^ 0)%nat with q by (simpl; lia). by rewrite Hq.
  - destruct (pos_is_Some a (2 * q)) as [xl Hxl].
    { pose proof (pos_Some_range _ _ _ Hq). pose proof (pow2_nat_pos e).
      cbn [Nat.pow] in Hb. nia. }
    rewrite Hxl. rewrite (IH fuel a s (2 * q)%nat xl); try done; try lia.
    + f_equal. f_equal. cbn [Nat.pow]. lia.
    + cbn [Nat.pow] in *. lia.
Qed.

(** [_getChild]: from the node at position [p], with a subtree of
    [2^d + o - 1] nodes, the walk ends at the parent of the subtree's next
    free slot.  The slot is free, or it is a right child. *)
Lemma getChild_spec d : forall fuel a s p x o,
  shape a s -> pos a p = Some x ->
  (1 <= d)%nat -> (o < 2 ^ d)%nat ->
  ((p * 2 ^ d + o) / 2 <= length a)%nat ->
  (length a < p * 2 ^ d + o \/ (p * 2 ^ d + o) mod 2 = 1)%nat ->
  (d <= fuel)%nat ->
  getChild fuel (Some x) (Z.of_nat (2 ^ d + o) - 1) s
  = Ret (pos a ((p * 2 ^ d + o) / 2)) s.
Proof.
  induction d as [|d IH]; intros fuel a s p x o Hsh Hp Hd Ho Hex Hfree Hfuel; [lia|].
  destruct fuel as [|fuel]; [lia|].
  pose proof Hsh as [Hnd Hnodes].
  destruct (Hnodes _ _ Hp) as (Lx & Rx & _).
  pose proof (pos_Some_range _ _ _ Hp) as Hrange.
  pose proof (pow2_nat_pos d) as Hpow.
  cbn [getChild].
  destruct (decide (d = 0)%nat) as [->|Hd0].
  { (* one or two nodes: the root of the subtree is the parent *)
    cbn [Nat.pow] in *.
    rewrite decide_False by lia. rewrite decide_True by lia.
    unfold ret. rewrite <- Hp. f_equal. f_equal. lia. }
  assert (2 <= 2 ^ d)%nat as Hpow2.
  { destruct d as [|d']; [done|]. cbn [Nat.pow]. pose proof (pow2_nat_pos d'). lia. }
  cbn [Nat.pow] in *.
  rewrite decide_False by lia. rewrite decide_False by lia.
  destruct (decide (o = 0)%nat) as [->|Ho0].
  - (* the subtree is full: down its left spine *)
    replace (Z.of_nat (2 * 2 ^ d + 0) - 1) with (Z.of_nat (2 ^ d + (2 ^ d - 1))) by lia.
    rewrite getHeight_pow by lia.
    replace (Z.of_nat d + 1 - 1) with (Z.of_nat d) by lia.
    rewrite pow2_nat.
    replace (Z.of_nat (2 ^ d + (2 ^ d - 1)) - (Z.of_nat (2 ^ d) - 1))
      with (1 * Z.of_nat (2 ^ d)) by lia.
    rewrite Z.mod_mul by lia. rewrite decide_True by done.
    mcbn. rewrite Lx.
    destruct (pos_is_Some a (2 * p)) as [xl Hxl]; [nia|].
    rewrite Hxl.
    destruct d as [|d']; [done|].
    rewrite (leftmost_spec d' fuel a s (2 * p)%nat xl); try done; try lia.
    + f_equal. f_equal. cbn [Nat.pow]. lia.
    + cbn [Nat.pow] in *.
      replace ((p * (2 * (2 * 2 ^ d')) + 0) / 2)%nat with (p * (2 * 2 ^ d'))%nat in Hex by lia.
      destruct Hfree as [Hfree|Hfree]; [|lia]. lia.
  - replace (Z.of_nat (2 * 2 ^ d + o) - 1) with (Z.of_nat (2 ^ (S d) + (o - 1)))
      by (cbn [Nat.pow]; lia).
    rewrite getHeight_pow by (cbn [Nat.pow]; lia).
    replace (Z.of_nat (S d) + 1 - 1) with (Z.of_nat (S d)) by lia.
    replace (Z.of_nat (S d) + 1 - 2) with (Z.of_nat d) by lia.
    rewrite !pow2_nat. cbn [Nat.pow].
    replace (Z.of_nat (2 * 2 ^ d + (o - 1)) - (Z.of_nat (2 * 2 ^ d) - 1))
      with (Z.of_nat o) by lia.
    rewrite Z.mod_small by lia.
    rewrite decide_False by lia.
    destruct (decide (Z.of_nat o >= Z.of_nat (2 ^ d))) as [Hge|Hlt].
    + (* the left half of the row is full: into the right subtree *)
      mcbn. rewrite Rx.
      destruct (pos_is_Some a (2 * p + 1)) as [xr Hxr]; [nia|].
      rewrite Hxr.
      replace (Z.of_nat (2 * 2 ^ d + (o - 1)) - Z.of_nat (2 * 2 ^ d))
        with (Z.of_nat (2 ^ d + (o - 2 ^ d)) - 1) by lia.
      assert (E : ((2 * p + 1) * 2 ^ d + (o - 2 ^ d) = p * (2 * 2 ^ d) + o)%nat) by lia.
      rewrite (IH fuel a s (2 * p + 1)%nat xr (o - 2 ^ d)%nat);
        rewrite ?E; try done; try lia.
    + mcbn. rewrite Lx.
      destruct (pos_is_Some a (2 * p)) as [xl Hxl]; [nia|].
      rewrite Hxl.
      replace (Z.of_nat (2 * 2 ^ d + (o - 1)) - Z.of_nat (2 ^ d))
        with (Z.of_nat (2 ^ d + o) - 1) by lia.
      assert (E : (2 * p * 2 ^ d + o = p * (2 * 2 ^ d) + o)%nat) by lia.
      rewrite (IH fuel a s (2 * p)%nat xl o);
        rewrite ?E; try done; try lia.
Qed.

Lemma nat_decompose j :
  (2 <= j)%nat -> exists d o, (1 <= d /\ o < 2 ^ d /\ j = 2 ^ d + o /\ d < j)%nat.
Proof.
  intros Hj. exists (Nat.log2 j), (j - 2 ^ Nat.log2 j)%nat.
  destruct (Nat.log2_spec j) as [H1 H2]; [lia|].
  cbn [Nat.pow] in H2.
  assert (1 <= Nat.log2 j)%nat.
  { change 1%nat with (Nat.log2 2). by apply Nat.log2_le_mono. }
  pose proof (Nat.pow_gt_lin_r 2 (Nat.log2 j)).
  repeat split; lia.
Qed.

(** From the root, [_getChild] with tree size [j - 1] ends at the parent
    of position [j]. *)
Lemma getChild_root fuel a s x j :
  shape a s -> pos a 1 = Some x ->
  (2 <= j)%nat -> (j / 2 <= length a)%nat ->
  (length a < j \/ j mod 2 = 1)%nat ->
  (j <= S fuel)%nat ->
  getChild fuel (Some x) (Z.of_nat j - 1) s = Ret (pos a (j / 2)) s.
Proof.
  intros Hsh Hx Hj Hex Hfree Hfuel.
  destruct (nat_decompose j Hj) as (d & o & Hd & Ho & -> & Hdj).
  rewrite (getChild_spec d fuel a s 1 x o); try done.
  - f_equal. f_equal. f_equal. lia.
  - by replace (1 * 2 ^ d + o)%nat with (2 ^ d + o)%nat by lia.
  - by replace (1 * 2 ^ d + o)%nat with (2 ^ d + o)%nat by lia.
  - lia.
Qed.

(** [_getNextParent()] on a heap of [n] nodes: the parent of position
    [n + 1]. *)
Lemma getNextParent_spec fuel a s :
  wf a s -> (length a <= fuel)%nat -> (1 <= fuel)%nat ->
  getNextParent fuel None s = Ret (pos a ((length a + 1) / 2)) s.
Proof.
  intros (Hsh & Hsz & Hhd & Hla) Hfuel Hfuel1. unfold getNextParent. mcbn.
  rewrite Hsz, Hhd.
  destruct (decide (length a = 0)%nat) as [E|E].
  - rewrite E. destruct a; [|done]. simpl.
    destruct fuel; [lia|]. done.
  - destruct (pos_is_Some a 1) as [x Hx]; [lia|]. rewrite Hx.
    replace (Z.of_nat (length a)) with (Z.of_nat (length a + 1) - 1) by lia.
    apply getChild_root; try done; lia.
Qed.



(** ** [push] *)

Lemma pos_snoc a x r :
  pos (a ++ [x]) r = if decide (r = S (length a)) then Some x else pos a r.
Proof.
  destruct r as [|i]; [by rewrite decide_False by lia|]. simpl.
  destruct (decide (S i = S (length a))) as [E|E].
  - injection E as ->. rewrite lookup_app_r by lia.
    by rewrite Nat.sub_diag.
  - destruct (decide (i < length a)%nat).
    + by rewrite lookup_app_l by lia.
    + rewrite !lookup_ge_None_2; [done|lia|]. rewrite length_app. simpl. lia.
Qed.

Lemma push_spec fuel a s x :
  wf a s -> ordered (key_of s) (length a) a -> x ∉ a ->
  (length a < fuel)%nat ->
  exists s' a',
    push fuel (Some x) s = Ret tt s'
    /\ wf a' s'
    /\ a' ≡ₚ a ++ [x]
    /\ same_vals s s'
    /\ ordered (key_of s') (S (length a)) a'.
Proof.
  intros Hwf Hord Hx Hfuel.
  pose proof Hwf as (Hsh & Hsz & Hhd & Hla).
  pose proof Hsh as [Hnd Hnodes].
  set (q := ((length a + 1) / 2)%nat).
  assert (Hnd' : NoDup (a ++ [x])).
  { apply NoDup_app. split; [done|]. split; [|apply NoDup_singleton].
    intros z Hz Hz'. apply list_elem_of_singleton in Hz'. by subst. }
  unfold push. unfold bind at 1.
  rewrite (getNextParent_spec fuel a s) by (done || lia). fold q.
  mcbn.
  assert (Hlink : exists s1,
    (forall k : M unit,
    (match pos a q with
     | Some _ =>
         if decide (size s `mod` 2 = 0)
         then write (with_right (Some x)) (pos a q)
         else write (with_left (Some x)) (pos a q)
     | None => set_head (Some x)
     end;;;
     sz' <- get_size;;
     set_size (sz' + 1);;;
     set_last (Some x);;;
     write (with_left None) (Some x);;;
     write (with_right None) (Some x);;;
     write (with_parent (pos a q)) (Some x);;; k) s = k s1)
    /\ wf (a ++ [x]) s1 /\ same_vals s s1).
  { destruct s as [m l sz h]. cbn [mem last size head] in *.
    destruct (pos a q) as [xq|] eqn:Hq.
    - pose proof (pos_Some_range _ _ _ Hq) as Hrq.
      destruct (Hnodes _ _ Hq) as (Lq & Rq & Pq). cbn [mem] in *.
      assert (xq <> x) as Hne by (intros ->; by apply Hx, (pos_elem_of a q)).
      destruct (decide (sz `mod` 2 = 0)) as [Hev|Hod];
        (eexists; split; [intros k; mrun Hnd; reflexivity|]).
      all: unfold set_mem; cbn [mem last size head].
      all: split; [|intros z; cbn [mem]; by autorewrite with updo].
      all: split; [|rewrite length_app; cbn [length mem last size head];
                    rewrite !pos_snoc;
                    split; [lia|split;
                      [rewrite decide_False by lia; done
                      |rewrite decide_True by lia; done]]].
      all: split; [done|].
      all: intros r z Hz; unfold node_at; rewrite !pos_snoc; rewrite pos_snoc in Hz;
        cbn [mem]; autorewrite with updo.
      all: destruct (decide (r = S (length a))) as [Hr|Hr];
        [injection Hz as <-;
         rewrite !(decide_True (P := Some x = Some x)) by done;
         rewrite !decide_False by lia; rewrite <- Hq; repeat split;
         try (symmetry; apply pos_None; lia); f_equal; lia|].
      all: destruct (Hnodes _ _ Hz) as (Lz & Rz & Pz); cbn [mem] in Lz, Rz, Pz.
      all: assert (z <> x) as Hzx by (intros ->; by apply Hx, (pos_elem_of a r)).
      all: rewrite !(decide_False (P := Some x = Some z)) by congruence.
      all: rewrite Lz, Rz, Pz.
      all: pose proof (pos_Some_range _ _ _ Hz) as Hrz.
      all: rewrite (decide_False (P := (r / 2)%nat = S (length a))) by lia.
      all: destruct (decide (r = q)) as [->|Hrq'];
        [rewrite Hq in Hz; injection Hz as <-;
         rewrite !(decide_True (P := Some xq = Some xq)) by done
        |rewrite !(decide_False (P := Some xq = Some z))
           by (intros E; apply Hrq'; apply (pos_inj a r q z Hnd Hz); by rewrite Hq)].
      all: repeat split; repeat nat_decide; try done.
      all: try (symmetry; apply pos_None; lia).
    - apply pos_None_inv in Hq. assert (length a = 0)%nat as Hn0 by lia.
      destruct a; [|done].
      eexists; split; [intros k; mrun Hnd; reflexivity|].
      unfold set_mem; cbn [mem last size head].
      split; [|intros z; cbn [mem]; by autorewrite with updo].
      split; [|repeat split; simpl in *; try done; lia].
      split; [done|].
      intros r z Hz. destruct r as [|[|r]]; simpl in Hz; try done.
      injection Hz as <-. unfold node_at. cbn [mem]. autorewrite with updo.
      rewrite !decide_True by done. done. }
  destruct Hlink as (s1 & Hrun1 & Hwf1 & Hv1).
  destruct (bubbleUp_spec fuel (a ++ [x]) s1 (S (length a)) x (S (length a)))
    as (s' & a' & Hrun' & Hwf' & Hperm & Hv' & Hord' & _).
  { done. }
  { rewrite pos_snoc. by rewrite decide_True. }
  { lia. }
  { lia. }
  { apply (ordered_up_ext (key_of s)); [intros z; by apply same_vals_key|].
    split.
    - intros r Hr Hrn x1 y1. rewrite !pos_snoc.
      rewrite !decide_False by lia. by apply Hord; lia.
    - intros c x1 y1 Hc Hc2. lia. }
  exists s', a'. split.
  { rewrite Hrun1. exact Hrun'. }
  split; [done|]. split; [done|]. split; [by eapply same_vals_trans|done].
Qed.

(** ** [pop] *)








Lemma bind_run {A B : Type} (m : M A) (k : A -> M B) s a s' :
  m s = Ret a s' -> bind m k s = k a s'.
Proof. unfold bind. by intros ->. Qed.











(** ** [validate] *)


Lemma validate_node_spec a s :
  shape a s -> ordered (key_of s) (length a) a ->
  forall fuel q,
    (2 <= q)%nat -> (1 <= fuel)%nat ->
    (q <= length a -> length a + 2 <= fuel + q)%nat ->
    validate_node fuel (pos a q) s = Ret true s.
Proof.
  intros [Hnd Hnodes] Hord.
  induction fuel as [|fuel IH]; intros q Hq Hf1 Hf; [lia|].
  cbn [validate_node].
  destruct (pos a q) as [z|] eqn:Hz; [|done].
  pose proof (pos_Some_range _ _ _ Hz) as Hr.
  destruct (Hnodes _ _ Hz) as (L & R & P).
  destruct (pos_is_Some a (q / 2)) as [zp Hzp]; [lia|].
  mcbn. rewrite P, Hzp. mcbn.
  fold (key_of s z) (key_of s zp). unfold key_ge.
  rewrite (Hord q ltac:(lia) z zp Hz Hzp).
  mcbn. rewrite L. erewrite bind_run; [|apply IH; lia].
  mcbn. rewrite R. apply IH; lia.
Qed.

Lemma validate_spec fuel a s :
  wf a s -> ordered (key_of s) (length a) a -> (length a <= fuel)%nat ->
  (1 <= fuel)%nat ->
  validate fuel s = Ret true s.
Proof.
  intros (Hsh & Hsz & Hhd & Hla) Hord Hfuel Hf1.
  unfold validate. mcbn. rewrite Hhd.
  destruct (pos a 1) as [x|] eqn:Hx.
  - pose proof (pos_Some_range _ _ _ Hx) as Hr.
    pose proof Hsh as [Hnd Hnodes].
    destruct (Hnodes _ _ Hx) as (L & R & _).
    mcbn. rewrite Hsz. rewrite decide_True by lia. mcbn.
    destruct (pos_is_Some a (length a)) as [yl Hyl]; [lia|].
    rewrite Hla, Hyl. rewrite decide_True by done. mcbn.
    rewrite Hhd. mcbn. rewrite L.
    erewrite bind_run; [|by apply validate_node_spec; try done; lia].
    mcbn. rewrite Hhd. mcbn. rewrite R.
    apply validate_node_spec; try done; lia.
  - apply pos_None_inv in Hx. assert (length a = 0)%nat as E by lia.
    mcbn. rewrite Hsz, E. rewrite decide_True by done. mcbn.
    rewrite Hla, E. done.
Qed.

(** ** Sequences of pushes and pops *)


Lemma ordered_nil k m : ordered k m [].
Proof. intros q _ x y Hx. by destruct q as [|[|q]]. Qed.





(** ** [pop] on the smallest heaps *)

(** C8.  [pop()] on a heap whose [size] is 1 returns the node [head]
    refers to and leaves [size = 0], [head = None] and [last = None]; the
    heap made by one push on the empty heap has size 1 and the pushed node
    as [head] and [last], so that node is what [pop()] returns.  [pop()]
    on a heap whose [size] is 0 raises [IndexError] (the empty-collection
    failure) and the attributes of the heap and the node objects are as
    before the call. *)
Theorem pop_sole_node_and_empty fuel (m : nat -> node) (l h : option nat) (x : nat) :
  pop fuel (mk_state m l 1 h) = Ret h (mk_state m None 0 None)
  /\ (exists s1,
        push (S fuel) (Some x) (empty_heap m) = Ret tt s1
        /\ size s1 = 1 /\ head s1 = Some x /\ last s1 = Some x
        /\ pop fuel s1 = Ret (Some x) (mk_state (mem s1) None 0 None))
  /\ pop fuel (mk_state m l 0 h) = Exc IndexError (mk_state m l 0 h).
Proof.
  split; [done|]. split; [|done].
  eexists. split.
  { unfold push, getNextParent, empty_heap. mcbn. cbn [getChild].
    rewrite bind_assoc. mcbn. rewrite bind_assoc. mcbn.
    rewrite (decide_True (P := 0 = 0)) by done. mcbn.
    repeat first [ mstep_head | progress unfold set_mem | progress mcbn ].
    cbn [bubbleUp]. mcbn. autorewrite with updo.
    rewrite decide_True by done. reflexivity. }
  cbn [size head last mem].
  split; [done|]. split; [done|]. split; [done|]. reflexivity.
Qed.

(** ** [popPush] *)



(** ** Checking the invariant on a given heap *)

Definition links_at (a : list nat) (s : state) (p : nat) : bool :=
  match pos a p with
  | None => true
  | Some x =>
      bool_decide (left (mem s x) = pos a (2 * p))
      && bool_decide (right (mem s x) = pos a (2 * p + 1))
      && bool_decide (parent (mem s x) = pos a (p / 2))
  end.

Definition wf_b (a : list nat) (s : state) : bool :=
  bool_decide (NoDup a)
  && forallb (links_at a s) (seq 1 (length a))
  && bool_decide (size s = Z.of_nat (length a))
  && bool_decide (head s = pos a 1)
  && bool_decide (last s = pos a (length a)).

Definition edge_b (k : nat -> K) (a : list nat) (q : nat) : bool :=
  match pos a q, pos a (q / 2) with
  | Some x, Some y => leb (k y) (k x)
  | _, _ => true
  end.

Definition ordered_b (k : nat -> K) (m : nat) (a : list nat) : bool :=
  forallb (edge_b k a) (seq 0 (S m)).

Lemma wf_b_sound a s : wf_b a s = true -> wf a s.
Proof.
  unfold wf_b. rewrite !andb_true_iff, !bool_decide_eq_true.
  intros ((((Hnd & Hall) & Hsz) & Hhd) & Hla).
  split; [|done]. split; [done|]. intros p x Hx.
  pose proof (pos_Some_range _ _ _ Hx) as Hr.
  rewrite forallb_forall in Hall.
  specialize (Hall p). unfold links_at in Hall. rewrite Hx in Hall.
  rewrite !andb_true_iff, !bool_decide_eq_true in Hall.
  destruct Hall as [[L R] P]; [apply in_seq; lia|]. done.
Qed.

Lemma ordered_b_sound k m a : ordered_b k m a = true -> ordered k m a.
Proof.
  unfold ordered_b. rewrite forallb_forall. intros Hall q Hq x y Hx Hy.
  specialize (Hall q). unfold edge_b in Hall. rewrite Hx, Hy in Hall.
  apply Hall, in_seq. lia.
Qed.

(** ** The subtree below a position *)

Inductive below (q : nat) : nat -> Prop :=
| below_refl : below q q
| below_l r : below q r -> below q (2 * r)
| below_r r : below q r -> below q (2 * r + 1).

Lemma below_children q r : below (2 * q) r \/ below (2 * q + 1) r -> below q r.
Proof.
  intros [H|H]; induction H; try (by constructor).
  - apply below_l, below_refl.
  - apply below_r, below_refl.
Qed.

Lemma below_cases q r : below q r -> r = q \/ below (2 * q) r \/ below (2 * q + 1) r.
Proof.
  induction 1 as [|r H [->|[IH|IH]]|r H [->|[IH|IH]]].
  - by left.
  - right; left. constructor.
  - right; left. by constructor.
  - right; right. by constructor.
  - right; right. constructor.
  - right; left. by constructor.
  - right; right. by constructor.
Qed.

Lemma below_ge q r : below q r -> (1 <= q -> q <= r)%nat.
Proof. induction 1; lia. Qed.

Lemma below_two_three r : (2 <= r)%nat -> below 2 r \/ below 3 r.
Proof.
  induction (lt_wf r) as [r _ IH]. intros Hr.
  destruct (decide (r = 2)%nat) as [->|H2]; [left; constructor|].
  destruct (decide (r = 3)%nat) as [->|H3]; [right; constructor|].
  destruct (IH (r / 2)%nat) as [H|H]; [lia|lia| |].
  - left. destruct (half_double r) as [_ [E|E]]; [lia| |].
    + rewrite E. by apply below_l.
    + rewrite E. by apply below_r.
  - right. destruct (half_double r) as [_ [E|E]]; [lia| |].
    + rewrite E. by apply below_l.
    + rewrite E. by apply below_r.
Qed.

(** [validate(node)] on the node at a position of a linked tree: it
    returns, and returns [True] exactly when no node of the subtree is
    below its parent in the order. *)
Lemma validate_node_decides a s :
  shape a s ->
  forall fuel q,
    (2 <= q)%nat -> (1 <= fuel)%nat ->
    (q <= length a -> length a + 2 <= fuel + q)%nat ->
    exists b,
      validate_node fuel (pos a q) s = Ret b s
      /\ (b = true <-> forall r, below q r -> edge (key_of s) a r).
Proof.
  intros [Hnd Hnodes].
  induction fuel as [|fuel IH]; intros q Hq Hf1 Hf; [lia|].
  cbn [validate_node].
  destruct (pos a q) as [z|] eqn:Hz.
  2: { exists true. split; [done|]. split; [|done]. intros _ r Hr x y Hx.
       pose proof (below_ge _ _ Hr ltac:(lia)). apply pos_None_inv in Hz.
       pose proof (pos_Some_range _ _ _ Hx). lia. }
  pose proof (pos_Some_range _ _ _ Hz) as Hrange.
  destruct (Hnodes _ _ Hz) as (L & R & P).
  destruct (pos_is_Some a (q / 2)) as [zp Hzp]; [lia|].
  mcbn. rewrite P, Hzp. mcbn.
  fold (key_of s z) (key_of s zp). unfold key_ge.
  destruct (leb (key_of s zp) (key_of s z)) eqn:Hcmp.
  2: { exists false. split; [done|]. split; [done|]. intros Hall.
       specialize (Hall q (below_refl q) z zp Hz Hzp). congruence. }
  mcbn. rewrite L.
  destruct (IH (2 * q)%nat) as (bl & Hrunl & Hbl); [lia|lia|lia|].
  rewrite (bind_run _ _ _ _ _ Hrunl).
  destruct bl.
  2: { exists false. split; [done|]. split; [done|]. intros Hall.
       assert (false = true); [|done]. apply Hbl. intros r Hr.
       apply Hall, below_children. by left. }
  mcbn. rewrite R.
  destruct (IH (2 * q + 1)%nat) as (br & Hrunr & Hbr); [lia|lia|lia|].
  exists br. split; [done|]. rewrite Hbr. split.
  - intros Hall r Hr. apply below_cases in Hr as [->|[Hr|Hr]].
    + intros x y Hx Hy. rewrite Hz in Hx. rewrite Hzp in Hy. by simplify_eq.
    + by apply Hbl.
    + by apply Hall.
  - intros Hall r Hr. apply Hall, below_children. by right.
Qed.

(** X1.  On a heap whose nodes are linked as a complete binary tree (with
    [size], [head] and [last] in step), [validate()] returns, changes
    nothing, and returns [True] exactly when no node is below its parent
    in the order of the keys. *)
Theorem validate_decides_heap_order fuel a s :
  wf a s -> (length a <= fuel)%nat -> (1 <= fuel)%nat ->
  exists b,
    validate fuel s = Ret b s
    /\ (b = true <-> ordered (key_of s) (length a) a).
Proof.
  intros (Hsh & Hsz & Hhd & Hla) Hfuel Hf1.
  unfold validate. mcbn. rewrite Hhd.
  destruct (pos a 1) as [x|] eqn:Hx.
  - pose proof (pos_Some_range _ _ _ Hx) as Hr.
    pose proof Hsh as [Hnd Hnodes].
    destruct (Hnodes _ _ Hx) as (L & R & _).
    mcbn. rewrite Hsz. rewrite decide_True by lia. mcbn.
    destruct (pos_is_Some a (length a)) as [yl Hyl]; [lia|].
    rewrite Hla, Hyl. rewrite decide_True by done. mcbn.
    rewrite Hhd. mcbn. rewrite L.
    destruct (validate_node_decides a s Hsh fuel 2) as (bl & Hrunl & Hbl);
      [lia|lia|lia|].
    destruct (validate_node_decides a s Hsh fuel 3) as (br & Hrunr & Hbr);
      [lia|lia|lia|].
    change (2 * 1)%nat with 2%nat. change (2 * 1 + 1)%nat with 3%nat.
    rewrite (bind_run _ _ _ _ _ Hrunl).
    destruct bl.
    + mcbn. rewrite Hhd. mcbn. rewrite R.
      change (2 * 1 + 1)%nat with 3%nat.
      exists br. split; [done|]. rewrite Hbr. split.
      * intros Hall q Hq.
        destruct (decide (q <= 1)%nat) as [Hq1|Hq1].
        { intros x' y' Hx' Hy'. pose proof (pos_Some_range _ _ _ Hx').
          assert (q = 1)%nat as -> by lia. done. }
        destruct (below_two_three q) as [Hb|Hb]; [lia| |].
        -- by apply Hbl.
        -- by apply Hall.
      * intros Hord r Hb. destruct (decide (r <= length a)%nat); [by apply Hord|].
        intros x' y' Hx'. pose proof (pos_Some_range _ _ _ Hx'). lia.
    + exists false. split; [done|]. split; [done|]. intros Hord.
      assert (false = true); [|done]. apply Hbl. intros r Hb.
      destruct (decide (r <= length a)%nat); [by apply Hord|].
      intros x' y' Hx'. pose proof (pos_Some_range _ _ _ Hx'). lia.
  - apply pos_None_inv in Hx. assert (length a = 0)%nat as E by lia.
    mcbn. rewrite Hsz, E. rewrite decide_True by done. mcbn.
    rewrite Hla, E. exists true. split; [done|]. split; [|done].
    intros _. destruct a; [|done]. apply ordered_nil.
Qed.

(** ** The methods on a heap that satisfies the invariant *)

(** X2.  [push(x)] of a node that is not in the heap, on a linked complete
    tree in heap order: the call returns; the nodes are again linked as a
    complete tree in heap order, made of the old nodes and [x]; [size] has
    grown by one; no node has changed its value; [validate()] is [True]. *)
Theorem push_keeps_heap fuel a s x :
  wf a s -> ordered (key_of s) (length a) a -> x ∉ a -> (length a < fuel)%nat ->
  exists s' a',
    push fuel (Some x) s = Ret tt s'
    /\ wf a' s'
    /\ ordered (key_of s') (length a') a'
    /\ a' ≡ₚ a ++ [x]
    /\ size s' = size s + 1
    /\ (forall z, val (mem s' z) = val (mem s z))
    /\ validate fuel s' = Ret true s'.
Proof.
  intros Hwf Hord Hx Hfuel.
  destruct (push_spec fuel a s x Hwf Hord Hx Hfuel)
    as (s' & a' & Hrun & Hwf' & Hperm & Hv & Hord').
  pose proof (Permutation_length Hperm) as Hlen.
  rewrite length_app in Hlen. cbn [length] in Hlen.
  assert (Hord'' : ordered (key_of s') (length a') a').
  { by replace (length a') with (S (length a)) by lia. }
  exists s', a'. do 4 (split; [done|]). split; [|split; [done|]].
  - destruct Hwf as (_ & -> & _), Hwf' as (_ & -> & _). lia.
  - apply (validate_spec fuel a'); [done|done|lia|lia].
Qed.


(** X4.  [_getNextParent()] on a linked complete tree of [n] nodes returns
    the node at position [(n + 1) / 2] in level order, the parent of the
    next free place ([None] on the empty heap), and changes nothing. *)
Theorem getNextParent_finds_parent fuel a s :
  wf a s -> (length a <= fuel)%nat -> (1 <= fuel)%nat ->
  getNextParent fuel None s = Ret (pos a ((length a + 1) / 2)) s.
Proof. apply getNextParent_spec. Qed.

(** X5.  [_swapWithParent(item)] on the node at a position [p >= 2] of a
    linked complete tree exchanges the node with its parent: the nodes are
    linked as a complete tree again, with the two nodes at each other's
    place, [head] and [last] following, and every value where it was.  On
    the root the right-hand side [item.parent.parent] raises
    [AttributeError] before anything is written. *)
Theorem swapWithParent_exchanges a s p x :
  wf a s -> pos a p = Some x ->
  (2 <= p ->
     exists s',
       swapWithParent (Some x) s = Ret tt s'
       /\ wf (swap a p (p / 2)) s'
       /\ (forall z, val (mem s' z) = val (mem s z)))%nat
  /\ (p = 1%nat -> swapWithParent (Some x) s = Exc AttributeError s).
Proof.
  intros Hwf Hp. split.
  - intros Hp2. by apply wf_swap.
  - intros ->. destruct Hwf as ([_ Hnodes] & _).
    destruct (Hnodes _ _ Hp) as (_ & _ & P).
    unfold swapWithParent. mcbn. by rewrite P.
Qed.



(** ** [popPush] on sibling keys that differ *)

(** No two sibling nodes at or below position [p] have equivalent keys. *)
Definition siblings_differ (k : nat -> K) (a : list nat) (p : nat) : Prop :=
  forall q xl xr,
    (p <= q)%nat -> pos a (2 * q) = Some xl -> pos a (2 * q + 1) = Some xr ->
    leb (k xl) (k xr) = false \/ leb (k xr) (k xl) = false.

Lemma ordered_from_down k m a i :
  ordered_down k m a i -> edge k a i ->
  (forall c x y, (c / 2)%nat = i -> pos a c = Some x -> pos a i = Some y ->
                 leb (k y) (k x) = true) ->
  ordered k m a.
Proof.
  intros [H1 _] Hi Hch q Hq.
  destruct (decide (q = i)) as [->|Hqi]; [done|].
  destruct (decide (q / 2 = i)%nat) as [E|E]; [|by apply H1].
  intros x y Hx Hy. rewrite E in Hy. by eapply Hch.
Qed.

(** The loop of [_bubbleDown]: the node moves below its smaller child
    while that child is smaller than it; it stops without a right child,
    or above two children that are not smaller. *)
Lemma bubbleDown_loop_spec fuel : forall a s p x first,
  wf a s -> pos a p = Some x -> (length a < fuel + p)%nat ->
  (first = true -> p = 1%nat) ->
  ordered_down (key_of s) (length a) a p -> edge (key_of s) a p ->
  siblings_differ (key_of s) a p ->
  exists s' a' p',
    bubbleDown_loop fuel (Some x) first s = Ret tt s'
    /\ wf a' s'
    /\ a' ≡ₚ a
    /\ same_vals s s'
    /\ pos a' p' = Some x
    /\ ordered_down (key_of s') (length a) a' p'
    /\ edge (key_of s') a' p'
    /\ ((length a < 2 * p' + 1)%nat
        \/ (forall c x', (c / 2)%nat = p' -> pos a' c = Some x' ->
                         leb (key_of s' x) (key_of s' x') = true)).
Proof.
  induction fuel as [|fuel IH]; intros a s p x first Hwf Hp Hfuel Hfirst Hord Hedge Hsib.
  { pose proof (pos_Some_range _ _ _ Hp). lia. }
  pose proof (pos_Some_range _ _ _ Hp) as Hrange.
  pose proof Hwf as (Hsh & Hsz & Hhd & Hla).
  pose proof Hsh as [Hnd Hnodes].
  destruct (Hnodes _ _ Hp) as (Lx & Rx & Px).
  cbn [bubbleDown_loop]. mcbn. rewrite Rx.
  destruct (pos a (2 * p + 1)) as [xr|] eqn:Hxr.
  2: { apply pos_None_inv in Hxr. exists s, a, p.
       do 6 (split; [done|]). split; [done|]. left. lia. }
  pose proof (pos_Some_range _ _ _ Hxr) as Hrange_r.
  destruct (pos_is_Some a (2 * p)) as [xl Hxl]; [lia|].
  mcbn. rewrite Lx, Hxl. mcbn. rewrite Rx. mcbn.
  (* a step below the child [xc] at position [c] *)
  assert (Hstep : forall c xc,
            pos a c = Some xc -> (c / 2)%nat = p ->
            leb (key_of s x) (key_of s xc) = false ->
            (forall c' x', (c' / 2 = p)%nat -> pos a c' = Some x' ->
                           leb (key_of s xc) (key_of s x') = true) ->
            exists s1,
              swapWithParent (Some xc) s = Ret tt s1
              /\ (if first then p0 <- read parent (Some x) ;; set_head p0 else ret tt) s1
                 = Ret tt s1
              /\ exists s' a' p',
                   bubbleDown_loop fuel (Some x) false s1 = Ret tt s'
                   /\ wf a' s'
                   /\ a' ≡ₚ a
                   /\ same_vals s s'
                   /\ pos a' p' = Some x
                   /\ ordered_down (key_of s') (length a) a' p'
                   /\ edge (key_of s') a' p'
                   /\ ((length a < 2 * p' + 1)%nat
                       \/ (forall c x', (c / 2)%nat = p' -> pos a' c = Some x' ->
                                        leb (key_of s' x) (key_of s' x') = true))).
  { intros c xc Hc Hc2 Hlt Hmin.
    pose proof (pos_Some_range _ _ _ Hc) as Hcr.
    destruct (wf_swap a s c xc Hwf Hc) as (s1 & Hrun1 & Hwf1 & Hv1); [lia|].
    rewrite Hc2 in Hwf1.
    assert (Hx1 : pos (swap a c p) c = Some x).
    { rewrite (pos_swap a c p xc x) by done. by rewrite decide_True. }
    assert (Hxc1 : pos (swap a c p) p = Some xc).
    { rewrite (pos_swap a c p xc x) by done.
      rewrite decide_False by lia. by rewrite decide_True. }
    exists s1. split; [done|]. split.
    { destruct Hwf1 as (Hsh1 & Hsz1 & Hhd1 & Hla1).
      destruct Hsh1 as [Hnd1 Hnodes1].
      destruct (Hnodes1 _ _ Hx1) as (_ & _ & Px1). rewrite Hc2, Hxc1 in Px1.
      destruct first; [|done].
      mcbn. rewrite Px1. mcbn. unfold set_head.
      rewrite set_head_same; [done|].
      rewrite Hhd1, <- Hxc1. f_equal. symmetry. by apply Hfirst. }
    destruct (IH (swap a c p) s1 c x false)
      as (s' & a' & p' & Hrun' & Hwf' & Hperm & Hv' & Hp' & Hord' & Hedge' & Hstop).
    { done. }
    { done. }
    { rewrite length_swap. lia. }
    { done. }
    { rewrite length_swap.
      apply (ordered_down_ext (key_of s)); [intros z; by apply same_vals_key|].
      pose proof (ordered_down_swap (key_of s) (length a) a c x xc Hnd Hc) as Hod.
      rewrite Hc2 in Hod. apply Hod; [done|lia|done|done]. }
    { intros x' y' Hx' Hy'. rewrite Hx1 in Hx'. rewrite Hc2, Hxc1 in Hy'.
      simplify_eq. rewrite !(same_vals_key s s1) by done. by apply leb_false. }
    { intros q xl' xr' Hq Hl' Hr'. rewrite !(same_vals_key s s1) by done.
      rewrite (pos_swap a c p xc x) in Hl', Hr' by done.
      rewrite !decide_False in Hl' by lia. rewrite !decide_False in Hr' by lia.
      apply (Hsib q); [lia|done|done]. }
    rewrite length_swap in *.
    exists s', a', p'. split; [done|]. split; [done|]. split.
    { rewrite Hperm. by apply swap_Permutation. }
    split; [by eapply same_vals_trans|]. done. }
  assert (Hmin_r : leb (key_of s xl) (key_of s xr) = false ->
            forall c' x', (c' / 2 = p)%nat -> pos a c' = Some x' ->
                          leb (key_of s xr) (key_of s x') = true).
  { intros Hlr c' x' Hc' Hx'.
    assert (c' = 2 * p \/ c' = 2 * p + 1)%nat as [->| ->] by lia.
    - rewrite Hxl in Hx'. injection Hx' as <-. by apply leb_false.
    - rewrite Hxr in Hx'. injection Hx' as <-. apply leb_refl. }
  assert (Hmin_l : leb (key_of s xl) (key_of s xr) = true ->
            forall c' x', (c' / 2 = p)%nat -> pos a c' = Some x' ->
                          leb (key_of s xl) (key_of s x') = true).
  { intros Hlr c' x' Hc' Hx'.
    assert (c' = 2 * p \/ c' = 2 * p + 1)%nat as [->| ->] by lia.
    - rewrite Hxl in Hx'. injection Hx' as <-. apply leb_refl.
    - rewrite Hxr in Hx'. by injection Hx' as <-. }
  assert (Hstop : leb (key_of s x) (key_of s xl) = true ->
            leb (key_of s x) (key_of s xr) = true ->
            forall c' x', (c' / 2 = p)%nat -> pos a c' = Some x' ->
                          leb (key_of s x) (key_of s x') = true).
  { intros H1 H2 c' x' Hc' Hx'.
    assert (c' = 2 * p \/ c' = 2 * p + 1)%nat as [->| ->] by lia.
    - rewrite Hxl in Hx'. by injection Hx' as <-.
    - rewrite Hxr in Hx'. by injection Hx' as <-. }
  destruct (Hsib p xl xr ltac:(lia) Hxl Hxr) as [Hlr|Hrl].
  - (* the right child is the smaller one *)
    pose proof (leb_false _ _ Hlr) as Hrl.
    destruct (leb (key_of s x) (key_of s xr)) eqn:Hxr'.
    + (* the node is not above it: the loop is left *)
      exists s, a, p. split.
      { unfold key_gt, key_lt, key_of in *.
        repeat first [ rewrite bind_assoc | progress mcbn | rewrite Lx | rewrite Rx
                     | rewrite Hxl | rewrite Hxr | rewrite Hlr | rewrite Hrl
                     | rewrite Hxr' | progress cbn [negb] ]. done. }
      do 5 (split; [done|]). split; [done|]. right.
      apply Hstop; [|done]. by apply (leb_trans _ (key_of s xr)).
    + destruct (Hstep (2 * p + 1)%nat xr Hxr ltac:(lia) Hxr' (Hmin_r Hlr))
        as (s1 & Hrun1 & Hhead1 & s' & a' & p' & Hrun' & Hrest).
      exists s', a', p'. split; [|done].
      unfold key_gt, key_lt, key_of in *.
      repeat first [ rewrite bind_assoc | progress mcbn | rewrite Lx | rewrite Rx
                   | rewrite Hxl | rewrite Hxr | rewrite Hlr | rewrite Hrl
                   | rewrite Hxr' | progress cbn [negb] ].
      rewrite (bind_run _ _ _ _ _ Hrun1).
      by rewrite (bind_run _ _ _ _ _ Hhead1).
  - (* the left child is the smaller one *)
    pose proof (leb_false _ _ Hrl) as Hlr.
    destruct (leb (key_of s x) (key_of s xl)) eqn:Hxl'.
    + exists s, a, p. split.
      { unfold key_gt, key_lt, key_of in *.
        repeat first [ rewrite bind_assoc | progress mcbn | rewrite Lx | rewrite Rx
                     | rewrite Hxl | rewrite Hxr | rewrite Hlr | rewrite Hrl
                     | rewrite Hxl' | progress cbn [negb] ]. done. }
      do 5 (split; [done|]). split; [done|]. right.
      apply Hstop; [done|]. by apply (leb_trans _ (key_of s xl)).
    + destruct (Hstep (2 * p)%nat xl Hxl ltac:(lia) Hxl' (Hmin_l Hlr))
        as (s1 & Hrun1 & Hhead1 & s' & a' & p' & Hrun' & Hrest).
      exists s', a', p'. split; [|done].
      unfold key_gt, key_lt, key_of in *.
      repeat first [ rewrite bind_assoc | progress mcbn | rewrite Lx | rewrite Rx
                   | rewrite Hxl | rewrite Hxr | rewrite Hlr | rewrite Hrl
                   | rewrite Hxl' | progress cbn [negb] ].
      rewrite (bind_run _ _ _ _ _ Hrun1).
      by rewrite (bind_run _ _ _ _ _ Hhead1).
Qed.

(** [_bubbleDown(node)] on the root of a tree that is in heap order but
    for the root. *)
Lemma bubbleDown_spec fuel a s x :
  wf a s -> pos a 1 = Some x -> (length a <= fuel)%nat ->
  ordered_down (key_of s) (length a) a 1 ->
  siblings_differ (key_of s) a 1 ->
  exists s' a',
    bubbleDown fuel (Some x) s = Ret tt s'
    /\ wf a' s'
    /\ a' ≡ₚ a
    /\ same_vals s s'
    /\ ordered (key_of s') (length a) a'.
Proof.
  intros Hwf Hx Hfuel Hord Hsib.
  destruct (bubbleDown_loop_spec fuel a s 1 x true)
    as (s1 & a1 & p1 & Hrun1 & Hwf1 & Hperm1 & Hv1 & Hp1 & Hord1 & Hedge1 & Hstop);
    [done|done|lia|done|done| |done|].
  { intros x' y' _ Hy'. done. }
  pose proof (Permutation_length Hperm1) as Hlen1.
  pose proof (pos_Some_range _ _ _ Hp1) as Hr1.
  pose proof Hwf1 as ([Hnd1 Hnodes1] & _).
  destruct (Hnodes1 _ _ Hp1) as (L1 & _ & _).
  destruct (pos a1 (2 * p1)) as [xl|] eqn:Hxl.
  2: { (* a leaf *)
       apply pos_None_inv in Hxl.
       exists s1, a1. split.
       { unfold bubbleDown. rewrite (bind_run _ _ _ _ _ Hrun1). mcbn. by rewrite L1. }
       do 3 (split; [done|]).
       apply (ordered_from_down _ _ _ p1); [done|done|].
       intros c x' y' Hc Hx'. pose proof (pos_Some_range _ _ _ Hx'). lia. }
  pose proof (pos_Some_range _ _ _ Hxl) as Hrl.
  destruct (leb (key_of s1 x) (key_of s1 xl)) eqn:Hcmp.
  - (* the node is not above its left child *)
    exists s1, a1. split.
    { unfold bubbleDown. rewrite (bind_run _ _ _ _ _ Hrun1).
      unfold key_lt, key_of in *.
      repeat first [ rewrite bind_assoc | progress mcbn | rewrite L1 | rewrite Hcmp
                   | progress cbn [negb] ]. done. }
    do 3 (split; [done|]).
    apply (ordered_from_down _ _ _ p1); [done|done|].
    intros c x' y' Hc Hx' Hy'. rewrite Hp1 in Hy'. injection Hy' as <-.
    destruct Hstop as [Hstop|Hstop]; [|by apply (Hstop c)].
    pose proof (pos_Some_range _ _ _ Hx').
    assert (c = 2 * p1)%nat as -> by lia.
    rewrite Hxl in Hx'. by injection Hx' as <-.
  - (* the left child is smaller: with sibling keys that differ it is the
       only child *)
    assert (length a < 2 * p1 + 1)%nat as Hlast.
    { destruct Hstop as [Hstop|Hstop]; [done|].
      rewrite (Hstop (2 * p1)%nat xl) in Hcmp; [done|lia|done]. }
    destruct (wf_swap a1 s1 (2 * p1) xl Hwf1 Hxl) as (s2 & Hrun2 & Hwf2 & Hv2); [lia|].
    replace (2 * p1 / 2)%nat with p1 in * by lia.
    exists s2, (swap a1 (2 * p1) p1). split.
    { unfold bubbleDown. rewrite (bind_run _ _ _ _ _ Hrun1).
      unfold key_lt, key_of in *.
      repeat first [ rewrite bind_assoc | progress mcbn | rewrite L1 | rewrite Hxl
                   | rewrite Hcmp | progress cbn [negb] ].
      done. }
    split; [done|]. split; [by rewrite swap_Permutation|].
    split; [by eapply same_vals_trans|].
    apply (ordered_ext (key_of s1)); [intros z; by apply same_vals_key|].
    pose proof (ordered_down_swap (key_of s1) (length a) a1 (2 * p1) x xl Hnd1 Hxl) as Hsw.
    replace (2 * p1 / 2)%nat with p1 in Hsw by lia.
    apply (ordered_from_down _ _ _ (2 * p1)%nat).
    + apply Hsw; [done|lia| |done].
      intros c' x' Hc' Hx'. pose proof (pos_Some_range _ _ _ Hx').
      assert (c' = 2 * p1)%nat as -> by lia.
      rewrite Hxl in Hx'. injection Hx' as <-. apply leb_refl.
    + intros x' y' Hx' Hy'.
      rewrite (pos_swap a1 (2 * p1) p1 xl x) in Hx', Hy' by done.
      rewrite decide_True in Hx' by done.
      replace (2 * p1 / 2)%nat with p1 in Hy' by lia.
      rewrite decide_False, decide_True in Hy' by lia.
      simplify_eq. by apply leb_false.
    + intros c x' y' Hc Hx'.
      pose proof (pos_Some_range _ _ _ Hx') as Hcr. rewrite length_swap in Hcr. lia.
Qed.

Lemma pos_cons_tail x item tl r :
  pos (item :: tl) r = if decide (r = 1%nat) then Some item else pos (x :: tl) r.
Proof. by destruct r as [|[|r]]. Qed.

Lemma bind_when_some_read_write {B : Type} (fld : node -> option nat) g o z
    (k : unit -> M B) s :
  fld (mem s z) = o ->
  bind (when_some o (o' <- read fld (Some z) ;; write g o')) k s
  = k tt (set_mem s (updo (mem s) o g)).
Proof.
  intros <-. destruct s as [m l sz h]. cbn [mem].
  destruct (fld (m z)) as [y|] eqn:E; [|done].
  cbn [when_some]. rewrite bind_assoc. mcbn. rewrite E. reflexivity.
Qed.

(** The statements of [popPush] before the call of [_bubbleDown]: the item
    takes the place of the head in the tree. *)
Lemma popPush_replace x tl s item :
  wf (x :: tl) s -> tl <> [] -> item ∉ x :: tl -> parent (mem s item) = None ->
  exists s1,
    (forall (B : Type) (k : M B),
       (set_head (Some item) ;;;
        ol <- read left (Some x) ;;
        write (with_left ol) (Some item) ;;;
        or <- read right (Some x) ;;
        write (with_right or) (Some item) ;;;
        il <- read left (Some item) ;;
        when_some il (il' <- read left (Some item) ;; write (with_parent (Some item)) il') ;;;
        ir <- read right (Some item) ;;
        when_some ir (ir' <- read right (Some item) ;; write (with_parent (Some item)) ir') ;;;
        write (with_left None) (Some x) ;;;
        write (with_right None) (Some x) ;;;
        k) s = k s1)
    /\ wf (item :: tl) s1
    /\ same_vals s s1
    /\ left (mem s1 x) = None /\ right (mem s1 x) = None /\ parent (mem s1 x) = None.
Proof.
  intros Hwf Htl Hitem Hpar.
  pose proof Hwf as (Hsh & Hsz & Hhd & Hla).
  pose proof Hsh as [Hnd Hnodes].
  destruct (Hnodes 1%nat x eq_refl) as (Lx & Rx & Px).
  assert (Hix : item <> x) by set_solver.
  assert (Hnotin : forall q, pos (x :: tl) q <> Some item).
  { intros q Hq. by apply Hitem, (pos_elem_of _ q). }
  assert (Hxpos : forall q, (2 <= q)%nat -> pos (x :: tl) q <> Some x).
  { intros q Hq2 Hq. pose proof (pos_inj (x :: tl) q 1 x Hnd Hq eq_refl). lia. }
  destruct s as [m l sz h]. cbn [mem last size head] in *.
  change (2 * 1 + 1)%nat with 3%nat in *. change (2 * 1)%nat with 2%nat in *.
  eexists. split.
  { intros B k. mrun Hnd.
    rewrite bind_when_some_read_write.
    2: { cbn [mem]. autorewrite with updo. by rewrite !decide_True by done. }
    mrun Hnd.
    rewrite bind_when_some_read_write.
    2: { cbn [mem]. autorewrite with updo.
         by rewrite (decide_True (P := Some item = Some item)) by done. }
    mrun Hnd. reflexivity. }
  split.
  { split; [split|].
    - apply NoDup_cons in Hnd as [_ Hnd]. apply NoDup_cons. split; [set_solver|done].
    - intros r z Hz. rewrite (pos_cons_tail x) in Hz.
      unfold node_at. cbn [mem]. rewrite !(pos_cons_tail x item tl).
      autorewrite with updo.
      destruct (decide (r = 1%nat)) as [->|Hr1].
      + injection Hz as <-.
        rewrite !(decide_True (P := Some item = Some item)) by done.
        rewrite !(decide_False (P := Some x = Some item)) by congruence.
        rewrite !(decide_False (P := pos (x :: tl) _ = Some item)) by apply Hnotin.
        cbn. by rewrite Hpar.
      + pose proof (pos_Some_range _ _ _ Hz) as Hr.
        destruct (Hnodes _ _ Hz) as (L & R & P). cbn [mem] in L, R, P.
        assert (z <> item) by (intros ->; by eapply Hnotin).
        assert (z <> x) by (intros ->; eapply (Hxpos r); [lia|done]).
        rewrite !(decide_False (P := Some item = Some z)) by congruence.
        rewrite !(decide_False (P := Some x = Some z)) by congruence.
        rewrite (decide_False (P := (2 * r)%nat = 1%nat)) by lia.
        rewrite (decide_False (P := (2 * r + 1)%nat = 1%nat)) by lia.
        rewrite L, R. split; [done|]. split; [done|].
        destruct (decide (r / 2 = 1)%nat) as [E|E].
        * assert (r = 2 \/ r = 3)%nat as [->| ->] by lia.
          -- rewrite (decide_True (P := pos (x :: tl) 2 = Some z)) by done.
             by destruct (decide (pos (x :: tl) 3 = Some z)).
          -- by rewrite (decide_True (P := pos (x :: tl) 3 = Some z)) by done.
        * rewrite (decide_False (P := pos (x :: tl) 3 = Some z)).
          2: { intros E'. pose proof (pos_inj _ _ _ _ Hnd E' Hz). lia. }
          rewrite (decide_False (P := pos (x :: tl) 2 = Some z)).
          2: { intros E'. pose proof (pos_inj _ _ _ _ Hnd E' Hz). lia. }
          done.
    - cbn [size head last length] in *. split; [done|]. split; [done|].
      rewrite Hla. rewrite (pos_cons_tail x item tl).
      destruct tl; [done|]. by rewrite decide_False by (cbn; lia). }
  split.
  { intros z. cbn [mem]. by autorewrite with updo. }
  cbn [mem]. autorewrite with updo.
  rewrite ?(decide_True (P := Some x = Some x)) by done.
  rewrite ?(decide_False (P := pos (x :: tl) _ = Some x)) by (apply Hxpos; lia).
  rewrite ?(decide_False (P := Some item = Some x)) by congruence.
  done.
Qed.

(** X19.  [popPush(item)] on a linked complete tree in heap order of at
    least two nodes, where no two sibling nodes have equivalent keys (so in
    particular when all keys differ), with an item that is not in the heap
    and has no parent: the call returns [None]; the nodes are again linked
    as a complete tree in heap order, made of the item and the old nodes
    but the old head; [size] and the values are as before; [validate()]
    is [True]. *)
Theorem popPush_keeps_heap fuel a s item :
  wf a s -> ordered (key_of s) (length a) a -> (2 <= length a <= fuel)%nat ->
  item ∉ a -> parent (mem s item) = None ->
  siblings_differ (key_of s) a 1 ->
  exists s' a',
    popPush fuel (Some item) s = Ret None s'
    /\ wf a' s'
    /\ ordered (key_of s') (length a') a'
    /\ a' ≡ₚ item :: tail a
    /\ size s' = size s
    /\ (forall z, val (mem s' z) = val (mem s z))
    /\ validate fuel s' = Ret true s'.
Proof.
  intros Hwf Hord Hlen Hitem Hpar Hsib.
  destruct a as [|x tl]; [cbn in Hlen; lia|].
  assert (Htl : tl <> []) by (intros ->; cbn in Hlen; lia).
  destruct (popPush_replace x tl s item Hwf Htl Hitem Hpar)
    as (s1 & Hrun1 & Hwf1 & Hv1 & _).
  assert (Hlen1 : length (item :: tl) = length (x :: tl)) by done.
  destruct (bubbleDown_spec fuel (item :: tl) s1 item Hwf1 eq_refl)
    as (s2 & a2 & Hrun2 & Hwf2 & Hperm2 & Hv2 & Hord2).
  { rewrite Hlen1. lia. }
  { split.
    - intros q Hq Hq1 Hq2 y z Hy Hz.
      rewrite (pos_cons_tail x) in Hy, Hz.
      rewrite decide_False in Hy by done. rewrite decide_False in Hz by done.
      rewrite !(same_vals_key s s1) by done. by apply (Hord q).
    - intros c y z _ _ _ Hz. done. }
  { intros q yl yr Hq Hl Hr. rewrite (pos_cons_tail x) in Hl, Hr.
    rewrite decide_False in Hl by lia. rewrite decide_False in Hr by lia.
    rewrite !(same_vals_key s s1) by done. by apply (Hsib q). }
  pose proof (Permutation_length Hperm2) as Hlen2.
  rewrite Hlen1 in Hord2. rewrite <- Hlen1, <- Hlen2 in Hord2.
  exists s2, a2. split.
  { destruct Hwf as (_ & _ & Hhd & _). change (head s = Some x) in Hhd.
    unfold popPush. mcbn. rewrite Hhd.
    pose proof (Hrun1 _ (bubbleDown fuel (Some item) ;;;
                         ip <- read parent (Some item) ;;
                         l <- get_last ;;
                         (if decide (ip = l) then set_last (Some item) else ret tt) ;;;
                         ret (None : option nat))) as Hstart.
    cbn [bind set_head] in Hstart. cbn [set_head]. rewrite Hstart.
    rewrite (bind_run _ _ _ _ _ Hrun2). mcbn.
    assert (Hin : item ∈ a2) by (rewrite Hperm2; set_solver).
    apply elem_of_pos in Hin as [p Hp].
    pose proof (pos_Some_range _ _ _ Hp) as Hpr.
    destruct Hwf2 as ([Hnd2 Hnodes2] & Hsz2 & Hhd2 & Hla2).
    destruct (Hnodes2 _ _ Hp) as (_ & _ & Pp).
    rewrite decide_False; [by destruct s2|].
    rewrite Pp, Hla2. intros E.
    destruct (pos_is_Some a2 (length a2)) as [yl Hyl]; [cbn in *; lia|].
    rewrite Hyl in E. pose proof (pos_inj _ _ _ _ Hnd2 E Hyl). lia. }
  split; [done|]. split; [done|]. split; [done|]. split; [|split].
  - destruct Hwf as (_ & -> & _), Hwf2 as (_ & -> & _). rewrite Hlen2. done.
  - intros z. by rewrite Hv2, Hv1.
  - apply (validate_spec fuel a2); [done|done| |lia].
    rewrite Hlen2, Hlen1. lia.
Qed.
End LinkedMinHeap.

Arguments Ret {V A} a s.
Arguments Exc {V A} e s.
Arguments OutOfFuel {V A}.
Arguments mk_node {V} val left right parent.
Arguments mk_state {V} mem last size head.

(** ** Heaps of integers

    Nodes that hold integers, compared by [lambda node: node.val]. *)

Lemma Zleb_total (k1 k2 : Z) : (k1 <=? k2) = true \/ (k2 <=? k1) = true.
Proof. lia. Qed.

Lemma Zleb_trans (k1 k2 k3 : Z) :
  (k1 <=? k2) = true -> (k2 <=? k3) = true -> (k1 <=? k3) = true.
Proof. lia. Qed.

(** Node objects at the addresses 0, 1, ... made by [LinkedHeapNode(v)]
    for the values of a list. *)
Definition nodes_of (vs : list Z) : nat -> node (V := Z) :=
  fun a => mk_node (default 0 (vs !! a)) None None None.

(** The heap [LinkedMinHeap(items, compF)] for the first [n] of these
    nodes. *)
Definition heap_of (fuel : nat) (vs : list Z) (n : nat) : outcome (V := Z) (list bool) :=
  push_each id Z.leb fuel (seq 0 n) (empty_heap (nodes_of vs)).

(** What can be seen of a heap: [last], [size], [head], and for the first
    [n] addresses the value and the links of the node. *)
Definition observe (n : nat) (s : state (V := Z))
  : option nat * Z * option nat * list (Z * option nat * option nat * option nat) :=
  (last s, size s, head s,
   (fun a => (val (mem s a), left (mem s a), right (mem s a), parent (mem s a)))
     <$> seq 0 n).

(** [r = heap.popPush(x); ok = heap.validate()] on the heap of the first
    [n] nodes: the returned object, the heap afterwards, and [ok]. *)
Definition popPush_then_validate (fuel : nat) (vs : list Z) (n x : nat) :=
  match heap_of fuel vs n with
  | Ret _ s =>
      match popPush id Z.leb fuel (Some x) s with
      | Ret r s1 =>
          match validate id Z.leb fuel s1 with
          | Ret ok _ => Some (r, observe (length vs) s1, ok)
          | _ => None
          end
      | _ => None
      end
  | _ => None
  end.

(** [r = heap.pop(); heap.push(x); ok = heap.validate()] on the same
    heap. *)
Definition pop_push_then_validate (fuel : nat) (vs : list Z) (n x : nat) :=
  match heap_of fuel vs n with
  | Ret _ s =>
      match pop id Z.leb fuel s with
      | Ret r s1 =>
          match push id Z.leb fuel (Some x) s1 with
          | Ret _ s2 =>
              match validate id Z.leb fuel s2 with
              | Ret ok _ => Some (r, observe (length vs) s2, ok)
              | _ => None
              end
          | _ => None
          end
      | _ => None
      end
  | _ => None
  end.


(** C3.  [popPush(x)] is not [pop()] followed by [push(x)].  The method
    has no [return] statement, so the caller gets [None] where [pop()]
    hands over the removed node.  On the heap of the single node 0 (value
    1), [popPush] of node 1 (value 2) leaves [last] referring to node 0,
    which is no longer in the heap, where the two calls leave [last] on
    node 1.  On the heap of the nodes 0..3 with the values 1, 2, 2, 3,
    [popPush] of node 4 (value 10) stops sifting at the tie between the two
    children of the root and after one swap leaves 10 above 3:
    [validate()] returns [False], where it returns [True] after the two
    calls. *)
Theorem popPush_differs_from_pop_then_push :
  popPush_then_validate 5 [1; 2] 1 1
  = Some (None,
          (Some 0%nat, 1, Some 1%nat,
           [(1, None, None, None); (2, None, None, None)]),
          true)
  /\ pop_push_then_validate 5 [1; 2] 1 1
     = Some (Some 0%nat,
             (Some 1%nat, 1, Some 1%nat,
              [(1, None, None, None); (2, None, None, None)]),
             true)
  /\ popPush_then_validate 8 [1; 2; 2; 3; 10] 4 4
     = Some (None,
             (Some 3%nat, 4, Some 1%nat,
              [(1, None, None, None); (2, Some 4%nat, Some 2%nat, None);
               (2, None, None, Some 1%nat); (3, None, None, Some 4%nat);
               (10, Some 3%nat, None, Some 1%nat)]),
             false)
  /\ pop_push_then_validate 8 [1; 2; 2; 3; 10] 4 4
     = Some (Some 0%nat,
             (Some 4%nat, 4, Some 1%nat,
              [(1, None, None, None); (2, Some 3%nat, Some 2%nat, None);
               (2, None, None, Some 1%nat); (3, Some 4%nat, None, Some 1%nat);
               (10, None, None, Some 3%nat)]),
             true).
Proof. repeat split; vm_compute; reflexivity. Qed.

(** A heap of three nodes: node 1 (value 3) at the root, node 0 (value 5)
    and node 2 (value 8) below it. *)
Definition heap3 : state (V := Z) :=
  mk_state
    (fun a => match a with
              | 0%nat => mk_node 5 None None (Some 1%nat)
              | 1%nat => mk_node 3 (Some 0%nat) (Some 2%nat) None
              | 2%nat => mk_node 8 None None (Some 1%nat)
              | _ => mk_node 0 None None None
              end)
    (Some 2%nat) 3 (Some 1%nat).

Definition heap3_layout : list nat := [1; 0; 2]%nat.

Lemma heap3_wf : wf heap3_layout heap3.
Proof. apply wf_b_sound. vm_compute. reflexivity. Defined.

Lemma heap3_ordered : ordered Z.leb (key_of id heap3) 3 heap3_layout.
Proof. apply ordered_b_sound. vm_compute. reflexivity. Defined.

Lemma validate_decides_heap_order_witness :
  exists b,
    validate id Z.leb 3 heap3 = Ret b heap3
    /\ (b = true <-> ordered Z.leb (key_of id heap3) (length heap3_layout) heap3_layout).
Proof.
  apply (validate_decides_heap_order id Z.leb 3 heap3_layout heap3 heap3_wf);
    simpl; lia.
Defined.

Lemma push_keeps_heap_witness :
  exists s' a',
    push id Z.leb 4 (Some 3%nat) heap3 = Ret tt s'
    /\ wf a' s'
    /\ ordered Z.leb (key_of id s') (length a') a'
    /\ a' ≡ₚ heap3_layout ++ [3%nat]
    /\ size s' = size heap3 + 1
    /\ (forall z, val (mem s' z) = val (mem heap3 z))
    /\ validate id Z.leb 4 s' = Ret true s'.
Proof.
  apply (push_keeps_heap id Z.leb Zleb_total Zleb_trans 4 heap3_layout heap3 3%nat
           heap3_wf heap3_ordered).
  - unfold heap3_layout. set_solver.
  - simpl. lia.
Defined.


Lemma getNextParent_finds_parent_witness :
  getNextParent 3 None heap3 = Ret (Some 0%nat) heap3.
Proof.
  apply (getNextParent_finds_parent 3 heap3_layout heap3 heap3_wf); simpl; lia.
Defined.

Lemma swapWithParent_exchanges_witness :
  (exists s',
     swapWithParent (Some 2%nat) heap3 = Ret tt s'
     /\ wf [2; 0; 1]%nat s'
     /\ (forall z, val (mem s' z) = val (mem heap3 z)))
  /\ swapWithParent (Some 1%nat) heap3 = Exc AttributeError heap3.
Proof.
  split.
  - apply (swapWithParent_exchanges heap3_layout heap3 3 2%nat heap3_wf eq_refl). lia.
  - by apply (swapWithParent_exchanges heap3_layout heap3 1 1%nat heap3_wf eq_refl).
Defined.


Lemma heap3_siblings : siblings_differ Z.leb (key_of id heap3) heap3_layout 1.
Proof.
  unfold heap3_layout. intros q xl xr Hq Hl Hr. destruct q as [|[|q]]; [lia| |].
  - cbn in Hl, Hr. simplify_eq. by right.
  - pose proof (pos_Some_range _ _ _ Hr) as Hrange. cbn [length] in Hrange. lia.
Defined.

Lemma popPush_keeps_heap_witness :
  exists s' a',
    popPush id Z.leb 3 (Some 3%nat) heap3 = Ret None s'
    /\ wf a' s'
    /\ ordered Z.leb (key_of id s') (length a') a'
    /\ a' ≡ₚ 3%nat :: tail heap3_layout
    /\ size s' = size heap3
    /\ (forall z, val (mem s' z) = val (mem heap3 z))
    /\ validate id Z.leb 3 s' = Ret true s'.
Proof.
  apply (popPush_keeps_heap id Z.leb Zleb_total Zleb_trans 3 heap3_layout heap3 3%nat
           heap3_wf heap3_ordered).
  - simpl. lia.
  - unfold heap3_layout. set_solver.
  - reflexivity.
  - exact heap3_siblings.
Defined.

End Heap.
